(** * HexMachina: the notebook driver and the pipeline it runs

    The repository's source is the Jupyter notebook
    [hexmachina/Notebook.ipynb].  Its code cells drive five stages
    (tetrahedral mesh, frame field, singular graph, volume parametrization,
    extraction) whose bodies live in modules that the notebook imports
    ([machina], [optimization], [singularity], [utils], [parametrization],
    [extraction]) and calls.

    The first part of this file embeds the notebook's cells as programs of
    a small state-and-exception monad over a Python kernel (name space,
    heap of objects, standard output) and takes the imported callables as
    a parameter [impl].  The later parts model stage bodies from the
    written specification, where a property is about them. *)

From Stdlib Require Import ZArith QArith List Lia.
From stdpp Require Import gmap strings list.

Set Warnings "-register-all".

Local Open Scope Z_scope.
Local Open Scope string_scope.
Local Open Scope list_scope.

(** ** Python values, objects and the kernel *)

Module Py.

Definition loc := positive.

(** Values that the driver handles.  Objects are references into the
    heap, so that two names bound to one object alias it. *)
Inductive value :=
| VNone
| VInt (n : Z)
| VFloat (q : Q)
| VStr (s : string)
| VModule (name : string)
| VRef (l : loc)
| VTuple (items : list value).

Inductive exn :=
| NameError (name : string)
| AttributeError (attr : string)
| TypeError
| IndexError
| Raised (msg : string).

(** An object is its attribute dictionary. *)
Record world := World {
  heap : gmap loc (gmap string value);
  stdout : string
}.

(** A callable of an imported module: positional arguments, keyword
    arguments, the world before; an exception or a value, and the world
    after. *)
Definition pyfun : Type :=
  list value -> list (string * value) -> world -> (exn + value) * world.

(** [obj.attr] *)
Definition getattr_in (w : world) (v : value) (attr : string) : exn + value :=
  match v with
  | VRef l =>
      match heap w !! l with
      | Some o =>
          match o !! attr with
          | Some x => inr x
          | None => inl (AttributeError attr)
          end
      | None => inl (AttributeError attr)
      end
  | _ => inl (AttributeError attr)
  end.

(** [seq[i]] for a constant index [i >= 0] *)
Definition subscript (v : value) (i : nat) : exn + value :=
  match v with
  | VTuple items =>
      match items !! i with
      | Some x => inr x
      | None => inl IndexError
      end
  | _ => inl TypeError
  end.

End Py.

Import Py.

(** ** The notebook

    The cells are read as Python 3 ([print] with [end=], [reload] from
    [importlib]), under which the recorded outputs were produced.  A
    method call [obj.f()] is a call of the callable [f] on [obj]. *)

Module Notebook.

(** The names that the cells call. *)
Inductive callee :=
| load_mesh | say_ok | HexMachina | vtk_tetmesh
| compute_normals | compute_curvatures | vtk_curvature | compute_dual
| init_framefield | optimize_framefield | vtk_framefield
| singular_graph | reload | parametrize_volume | extract_isolines.

(** The global names that the cells bind. *)
Record namespace := Namespace {
  tri_mesh : option value;
  machina : option value;
  singular_vertices : option value;
  uvw_map : option value;
  iso_pts : option value
}.

(** What a run leaves behind for an observer: every call of an imported
    callable with its arguments and the heap it starts in, and its
    outcome with the heap it leaves. *)
Inductive event :=
| EvCall (c : callee) (args : list value) (kwargs : list (string * value))
         (h : gmap loc (gmap string value))
| EvRet (c : callee) (result : value) (h : gmap loc (gmap string value))
| EvRaise (c : callee) (e : exn).

Record kernel := Kernel {
  ns : namespace;
  wd : world;
  trace : list event
}.

Definition fresh (n : namespace) (w : world) : kernel :=
  {| ns := n; wd := w; trace := [] |}.

(** State and exception monad of a cell. *)
Definition M (A : Type) : Type := kernel -> (exn + A) * kernel.

Definition ret {A} (a : A) : M A := fun k => (inr a, k).

Definition bind {A B} (m : M A) (f : A -> M B) : M B :=
  fun k =>
    match m k with
    | (inr a, k') => f a k'
    | (inl e, k') => (inl e, k')
    end.

Definition raise {A} (e : exn) : M A := fun k => (inl e, k).

Definition lift {A} (r : exn + A) : M A := fun k => (r, k).

Declare Scope cell_scope.
Delimit Scope cell_scope with cell.
Notation "x <- m ;; f" := (bind m (fun x => f))
  (at level 100, m at next level, right associativity) : cell_scope.
Notation "m ;; f" := (bind m (fun _ => f))
  (at level 100, right associativity) : cell_scope.
Local Open Scope cell_scope.

(** [print(s, end=e)]; the default [end] is a newline. *)
Definition nl : string := String (Ascii.ascii_of_nat 10) EmptyString.

Definition print (s : string) (e : string) : M unit :=
  fun k =>
    (inr tt,
     {| ns := ns k;
        wd := {| heap := heap (wd k); stdout := stdout (wd k) ++ s ++ e |};
        trace := trace k |}).

(** [sys.stdout.flush()] *)
Definition flush : M unit := ret tt.

(** Reading a global name *)
Definition name (x : string) (field : namespace -> option value) : M value :=
  fun k =>
    match field (ns k) with
    | Some v => (inr v, k)
    | None => (inl (NameError x), k)
    end.

Definition set_ns (f : namespace -> namespace) : M unit :=
  fun k => (inr tt, {| ns := f (ns k); wd := wd k; trace := trace k |}).

Definition set_tri_mesh (v : value) (n : namespace) : namespace :=
  {| tri_mesh := Some v; machina := machina n;
     singular_vertices := singular_vertices n;
     uvw_map := uvw_map n; iso_pts := iso_pts n |}.

Definition set_machina (v : value) (n : namespace) : namespace :=
  {| tri_mesh := tri_mesh n; machina := Some v;
     singular_vertices := singular_vertices n;
     uvw_map := uvw_map n; iso_pts := iso_pts n |}.

Definition set_singular_vertices (v : value) (n : namespace) : namespace :=
  {| tri_mesh := tri_mesh n; machina := machina n;
     singular_vertices := Some v;
     uvw_map := uvw_map n; iso_pts := iso_pts n |}.

Definition set_uvw_map (v : value) (n : namespace) : namespace :=
  {| tri_mesh := tri_mesh n; machina := machina n;
     singular_vertices := singular_vertices n;
     uvw_map := Some v; iso_pts := iso_pts n |}.

Definition set_iso_pts (v : value) (n : namespace) : namespace :=
  {| tri_mesh := tri_mesh n; machina := machina n;
     singular_vertices := singular_vertices n;
     uvw_map := uvw_map n; iso_pts := Some v |}.

Definition getattr (v : value) (attr : string) : M value :=
  fun k => (getattr_in (wd k) v attr, k).

Section Driver.

(** The imported callables. *)
Variable impl : callee -> pyfun.

Definition call (c : callee) (args : list value)
    (kwargs : list (string * value)) : M value :=
  fun k =>
    let started := trace k ++ [EvCall c args kwargs (heap (wd k))] in
    match impl c args kwargs (wd k) with
    | (inr v, w) =>
        (inr v,
         {| ns := ns k; wd := w;
            trace := started ++ [EvRet c v (heap w)] |})
    | (inl e, w) =>
        (inl e,
         {| ns := ns k; wd := w; trace := started ++ [EvRaise c e] |})
    end.

(** Cell 1: the imports. *)
Definition cell_imports : M unit := ret tt.

(** Cell 2, "Generate Tetrahedral Mesh". *)
Definition cell_tetmesh : M unit :=
  print "Reading triangle mesh..." " ";;
  flush;;
  t <- call load_mesh [VStr "../io/cylinder.stl"] [];;
  set_ns (set_tri_mesh t);;
  call say_ok [] [];;
  print "Generating tetrahedral mesh..." " ";;
  flush;;
  t <- name "tri_mesh" tri_mesh;;
  m <- call HexMachina [t] [("max_vol", VInt 1)];;
  set_ns (set_machina m);;
  m <- name "machina" machina;;
  tm <- getattr m "tet_mesh";;
  call vtk_tetmesh [tm; VStr "tet_mesh"] [];;
  call say_ok [] [];;
  print "Computing surface curvatures/normals..." " ";;
  flush;;
  m <- name "machina" machina;;
  s <- getattr m "surf_mesh";;
  call compute_normals [s] [];;
  m <- name "machina" machina;;
  s <- getattr m "surf_mesh";;
  call compute_curvatures [s] [];;
  m <- name "machina" machina;;
  s <- getattr m "surf_mesh";;
  call vtk_curvature [s; VStr "curvature"] [];;
  call say_ok [] [];;
  print "Extracting dual voronoi..." " ";;
  flush;;
  m <- name "machina" machina;;
  call compute_dual [m] [];;
  call say_ok [] [];;
  ret tt.

(** Cell 3, "Construct Framefield". *)
Definition cell_framefield : M unit :=
  print "Initializing framefield..." " ";;
  flush;;
  m <- name "machina" machina;;
  call init_framefield [m] [];;
  call say_ok [] [];;
  print "Optimizing framefield..." nl;;
  m <- name "machina" machina;;
  call optimize_framefield [m] [];;
  call say_ok [] [];;
  m <- name "machina" machina;;
  f <- getattr m "frames";;
  call vtk_framefield [f; VStr "field"] [];;
  ret tt.

(** Cell 4, "Pre-process". *)
Definition cell_singular : M unit :=
  print "Computing singular graph..." " ";;
  flush;;
  m <- name "machina" machina;;
  r <- call singular_graph [m] [];;
  sv <- lift (subscript r 2);;
  set_ns (set_singular_vertices sv);;
  call say_ok [] [];;
  ret tt.

(** Cell 5, "Parametrize". *)
Definition cell_parametrize : M unit :=
  call reload [VModule "parametrization"] [];;
  print "Parametrizing volume..." nl;;
  m <- name "machina" machina;;
  sv <- name "singular_vertices" singular_vertices;;
  u <- call parametrize_volume [m; sv; VFloat 3] [];;
  set_ns (set_uvw_map u);;
  call say_ok [] [];;
  ret tt.

(** Cell 6, "Extract hex". *)
Definition cell_extract : M unit :=
  call reload [VModule "extraction"] [];;
  print "Extracting hexahedrons..." " ";;
  m <- name "machina" machina;;
  u <- name "uvw_map" uvw_map;;
  p <- call extract_isolines [m; u] [];;
  set_ns (set_iso_pts p);;
  call say_ok [] [];;
  ret tt.

(** Cells 7 and 8 are empty. *)
Definition cell_empty : M unit := ret tt.

(** The cells in the order of the document; a run stops at the first
    cell that raises. *)
Definition run_all : M unit :=
  cell_imports;; cell_tetmesh;; cell_framefield;; cell_singular;;
  cell_parametrize;; cell_extract;; cell_empty;; cell_empty.

End Driver.

(** The outcome of a cell started in [k] satisfies [Q]. *)
Definition wp {A} (m : M A) (Q : exn + A -> kernel -> Prop)
    (k : kernel) : Prop :=
  Q (m k).1 (m k).2.

(** *** The stages of the pipeline

    The stage that a call belongs to follows the notebook's sections:
    "Generate Tetrahedral Mesh" builds the mesh, its surface attributes
    and its dual; "Construct Framefield" initializes and optimizes the
    field; then the singular graph, the parametrization, the extraction.
    Reading the input, the [vtk_*] exports, [say_ok] and [reload] belong
    to no stage. *)

Inductive stage :=
| TetMesh | FrameField | SingularGraph | VolumeParametrizer | HexExtractor.

Definition stage_index (s : stage) : nat :=
  match s with
  | TetMesh => 0
  | FrameField => 1
  | SingularGraph => 2
  | VolumeParametrizer => 3
  | HexExtractor => 4
  end.

Definition stage_of (c : callee) : option stage :=
  match c with
  | HexMachina | compute_normals | compute_curvatures | compute_dual =>
      Some TetMesh
  | init_framefield | optimize_framefield => Some FrameField
  | singular_graph => Some SingularGraph
  | parametrize_volume => Some VolumeParametrizer
  | extract_isolines => Some HexExtractor
  | load_mesh | say_ok | vtk_tetmesh | vtk_curvature | vtk_framefield
  | reload => None
  end.

Definition upstream (s' s : stage) : Prop :=
  (stage_index s' < stage_index s)%nat.

#[global] Instance callee_eq_dec : EqDecision callee.
Proof. solve_decision. Defined.

Definition all_callees : list callee :=
  [load_mesh; say_ok; HexMachina; vtk_tetmesh; compute_normals;
   compute_curvatures; vtk_curvature; compute_dual; init_framefield;
   optimize_framefield; vtk_framefield; singular_graph; reload;
   parametrize_volume; extract_isolines].

Definition called (e : event) : option callee :=
  match e with
  | EvCall c _ _ _ => Some c
  | _ => None
  end.

(** *** A checker for the order of a trace

    [forward_from done tr]: in [tr], every call of a stage comes after the
    return of every callable of every earlier stage ([done] lists those
    that returned before [tr]), and no call of an earlier stage follows. *)

Definition has_returned (done : list callee) (c : callee) : bool :=
  existsb (fun d => bool_decide (d = c)) done.

Definition upstream_done (done : list callee) (s : stage) : bool :=
  forallb
    (fun c' =>
       match stage_of c' with
       | Some s' =>
           if (stage_index s' <? stage_index s)%nat
           then has_returned done c' else true
       | None => true
       end)
    all_callees.

Definition not_before (s : stage) (e : event) : bool :=
  match called e with
  | Some c2 =>
      match stage_of c2 with
      | Some s2 => (stage_index s <=? stage_index s2)%nat
      | None => true
      end
  | None => true
  end.

Fixpoint forward_from (done : list callee) (tr : list event) : bool :=
  match tr with
  | [] => true
  | e :: tr' =>
      match e with
      | EvCall c _ _ _ =>
          match stage_of c with
          | Some s => upstream_done done s && forallb (not_before s) tr'
          | None => true
          end && forward_from done tr'
      | EvRet c _ _ => forward_from (c :: done) tr'
      | EvRaise _ _ => forward_from done tr'
      end
  end.

(** *** What is handed from one call to the next

    Between the return of a call and the start of the next one, the heap
    is the same: the cells themselves write to no object. *)
Fixpoint handed_over (tr : list event) : Prop :=
  match tr with
  | [] => True
  | e :: tr' =>
      match e, tr' with
      | EvRet _ _ h1, EvCall _ _ _ h2 :: _ => h1 = h2
      | _, _ => True
      end /\ handed_over tr'
  end.

(** The callables that the cells give the [machina] object to. *)
Definition takes_machina (c : callee) : bool :=
  match c with
  | compute_dual | init_framefield | optimize_framefield
  | singular_graph | parametrize_volume | extract_isolines => true
  | _ => false
  end.

(** *** The two readings that the code does not bear out

    [full_output_passed tr]: whatever [singular_graph] returned is given to
    [parametrize_volume], as it is or component by component. *)
Definition component (x r : value) : Prop :=
  exists items, r = VTuple items /\ In x items.

Definition full_output_passed (tr : list event) : Prop :=
  forall r hr args kwargs h,
    In (EvRet singular_graph r hr) tr ->
    In (EvCall parametrize_volume args kwargs h) tr ->
    In r args \/ (forall x, component x r -> In x args).

(** [artifacts_frozen tr]: an object that a stage returned is the same in
    the heap left by every callable of a later stage. *)
Definition artifacts_frozen (tr : list event) : Prop :=
  forall i j c1 l h1 c2 v2 h2 s1 s2,
    tr !! i = Some (EvRet c1 (VRef l) h1) ->
    tr !! j = Some (EvRet c2 v2 h2) ->
    (i < j)%nat ->
    stage_of c1 = Some s1 -> stage_of c2 = Some s2 -> upstream s1 s2 ->
    h1 !! l = h2 !! l.

(** *** Stand-ins for the imported callables

    A small instance of [impl], to run the cells on: objects carry only the
    attributes that the cells read or that name the result of a call. *)

Definition store (l : loc) (o : gmap string value) (w : world) : world :=
  {| heap := <[l := o]> (heap w); stdout := stdout w |}.

Definition setattr (l : loc) (attr : string) (v : value) (w : world) : world :=
  {| heap := alter (fun o => <[attr := v]> o) l (heap w);
     stdout := stdout w |}.

Definition returns_none (w : world) : (exn + value) * world := (inr VNone, w).

Definition method (attr : string) (v : value) (args : list value)
    (w : world) : (exn + value) * world :=
  match args with
  | [VRef l] => returns_none (setattr l attr v w)
  | _ => (inl TypeError, w)
  end.

Definition demo_impl (c : callee) : pyfun :=
  fun args kwargs w =>
    match c with
    | load_mesh =>
        (inr (VRef 1%positive), store 1%positive {[ "faces" := VTuple [] ]} w)
    | HexMachina =>
        match args with
        | [t] =>
            (inr (VRef 4%positive),
             store 4%positive {[ "tet_mesh" := VRef 2%positive; "surf_mesh" := VRef 3%positive ]}
               (store 3%positive ∅ (store 2%positive ∅ w)))
        | _ => (inl TypeError, w)
        end
    | compute_normals => method "normals" (VTuple []) args w
    | compute_curvatures => method "curvatures" (VTuple []) args w
    | compute_dual => method "dual" (VTuple []) args w
    | init_framefield => method "frames" (VTuple []) args w
    | optimize_framefield => method "frames" (VTuple [VInt 0]) args w
    | singular_graph =>
        (inr (VTuple [VTuple [VInt 0]; VTuple [VInt 1]; VTuple [VInt 2]]), w)
    | parametrize_volume => (inr (VRef 5%positive), store 5%positive ∅ w)
    | extract_isolines => (inr (VTuple []), w)
    | say_ok =>
        returns_none
          {| heap := heap w; stdout := stdout w ++ " OK. " ++ nl |}
    | vtk_tetmesh | vtk_curvature | vtk_framefield | reload =>
        returns_none w
    end.

Definition empty_namespace : namespace :=
  {| tri_mesh := None; machina := None; singular_vertices := None;
     uvw_map := None; iso_pts := None |}.

Definition empty_world : world := {| heap := ∅; stdout := "" |}.

Definition demo_trace : list event :=
  trace (run_all demo_impl (fresh empty_namespace empty_world)).2.

Definition demo_event (i : nat) : event :=
  nth i demo_trace (EvRaise say_ok TypeError).

(** The heap of the [i]-th event of that run. *)
Definition demo_heap (i : nat) : gmap loc (gmap string value) :=
  match demo_event i with
  | EvCall _ _ _ h => h
  | EvRet _ _ h => h
  | EvRaise _ _ => ∅
  end.

(** *** The calls of a run, and sessions

    The callables that the cells call, in the order of the document. *)
Definition program_calls : list callee :=
  [load_mesh; say_ok; HexMachina; vtk_tetmesh; say_ok;
   compute_normals; compute_curvatures; vtk_curvature; say_ok;
   compute_dual; say_ok;
   init_framefield; say_ok; optimize_framefield; say_ok; vtk_framefield;
   singular_graph; say_ok;
   reload; parametrize_volume; say_ok;
   reload; extract_isolines; say_ok].

Fixpoint calls (tr : list event) : list callee :=
  match tr with
  | [] => []
  | EvCall c _ _ _ :: tr' => c :: calls tr'
  | _ :: tr' => calls tr'
  end.

(** The outcomes of a cell started in [k1] and in [k2] are related by
    [Q]. *)
Definition wp2 {A} (m : M A)
    (Q : exn + A -> kernel -> exn + A -> kernel -> Prop)
    (k1 k2 : kernel) : Prop :=
  Q (m k1).1 (m k1).2 (m k2).1 (m k2).2.

(** The code cells of the notebook. *)
Inductive cell_name :=
| c_imports | c_tetmesh | c_framefield | c_singular
| c_parametrize | c_extract | c_empty.

Definition run_cell (impl : callee -> pyfun) (c : cell_name) : M unit :=
  match c with
  | c_imports => cell_imports
  | c_tetmesh => cell_tetmesh impl
  | c_framefield => cell_framefield impl
  | c_singular => cell_singular impl
  | c_parametrize => cell_parametrize impl
  | c_extract => cell_extract impl
  | c_empty => cell_empty
  end.

(** A session: cells run one after the other, in any order and any number
    of times; a cell that raises is abandoned and the kernel stays as the
    cell left it. *)
Definition session (impl : callee -> pyfun) (cs : list cell_name)
    (k : kernel) : kernel :=
  fold_left (fun k c => (run_cell impl c k).2) cs k.

(** [justified seen e]: the arguments of the call [e] are results that
    were returned in [seen]. *)
Definition justified (seen : list event) (e : event) : Prop :=
  match e with
  | EvCall c args _ _ =>
      match c with
      | parametrize_volume =>
          exists m hm r hr sv,
            In (EvRet HexMachina m hm) seen /\
            In (EvRet singular_graph r hr) seen /\
            subscript r 2 = inr sv /\
            args = [m; sv; VFloat 3]
      | extract_isolines =>
          exists m hm u hu,
            In (EvRet HexMachina m hm) seen /\
            In (EvRet parametrize_volume u hu) seen /\
            args = [m; u]
      | compute_dual | init_framefield | optimize_framefield
      | singular_graph =>
          exists m hm, In (EvRet HexMachina m hm) seen /\ args = [m]
      | _ => True
      end
  | _ => True
  end.

Definition all_justified (tr : list event) : Prop :=
  forall pre e post, tr = pre ++ e :: post -> justified pre e.

(** The names that are bound hold results that were returned in [tr]. *)
Definition names_ok (n : namespace) (tr : list event) : Prop :=
  (forall m, machina n = Some m -> exists hm, In (EvRet HexMachina m hm) tr) /\
  (forall sv, singular_vertices n = Some sv ->
     exists r hr, In (EvRet singular_graph r hr) tr /\
                  subscript r 2 = inr sv) /\
  (forall u, uvw_map n = Some u ->
     exists hu, In (EvRet parametrize_volume u hu) tr).

Definition session_invariant (k : kernel) : Prop :=
  all_justified (trace k) /\ names_ok (ns k) (trace k).

(** The part of a world that an attribute is read from. *)
Definition heap_only (h : gmap loc (gmap string value)) : world :=
  {| heap := h; stdout := "" |}.

(** The attribute of [machina] that a cell reads for the first argument of
    a call, and the arguments that follow it. *)
Definition attribute_read (c : callee) : option (string * list value) :=
  match c with
  | vtk_tetmesh => Some ("tet_mesh", [VStr "tet_mesh"])
  | compute_normals => Some ("surf_mesh", [])
  | compute_curvatures => Some ("surf_mesh", [])
  | vtk_curvature => Some ("surf_mesh", [VStr "curvature"])
  | vtk_framefield => Some ("frames", [VStr "field"])
  | _ => None
  end.


(** [hands_on before x]: when [x] is a call that follows the return
    [before], it starts in the heap that the return left. *)
Definition hands_on (before : option event) (x : event) : Prop :=
  match before, x with
  | Some (EvRet _ _ h1), EvCall _ _ _ h2 => h1 = h2
  | _, _ => True
  end.

Definition heap_invariant (k : kernel) : Prop :=
  handed_over (trace k) /\
  match last (trace k) with
  | Some (EvRet _ _ h) => h = heap (wd k)
  | _ => True
  end.




(** A session on the stand-ins that starts with the extraction cell. *)
Definition demo_cells : list cell_name :=
  [c_extract; c_tetmesh; c_framefield; c_singular; c_parametrize].

Abbreviation demo_session :=
  (trace (session demo_impl demo_cells (fresh empty_namespace empty_world))).


End Notebook.

(** ** The 24 rotations of the cube

    Modelled from the spec: the matchings of machina.py and singularity.py
    are not among the sources.  A matching is "the permutation-with-sign,
    one of the 24 proper rotations of a cube": a permutation of the three
    axes of a frame with signs, of determinant one. *)

Module CubeSym.

Inductive axis := U | V | W.

(** One of the six directions [+U], [-U], [+V], [-V], [+W], [-W]. *)
Record dir := Dir { flipped : bool; along : axis }.

(** Where the three axes go. *)
Record rot := Rot { to_u : dir; to_v : dir; to_w : dir }.

#[global] Instance axis_eq_dec : EqDecision axis.
Proof. solve_decision. Defined.

#[global] Instance dir_eq_dec : EqDecision dir.
Proof. solve_decision. Defined.

#[global] Instance rot_eq_dec : EqDecision rot.
Proof. solve_decision. Defined.

Definition image (r : rot) (a : axis) : dir :=
  match a with
  | U => to_u r
  | V => to_v r
  | W => to_w r
  end.

Definition act (r : rot) (d : dir) : dir :=
  {| flipped := xorb (flipped d) (flipped (image r (along d)));
     along := along (image r (along d)) |}.

(** [compose r2 r1]: first [r1], then [r2]. *)
Definition compose (r2 r1 : rot) : rot :=
  {| to_u := act r2 (to_u r1);
     to_v := act r2 (to_v r1);
     to_w := act r2 (to_w r1) |}.

Definition rot_id : rot :=
  {| to_u := Dir false U; to_v := Dir false V; to_w := Dir false W |}.

Definition even_perm (a b c : axis) : bool :=
  match a, b, c with
  | U, V, W | V, W, U | W, U, V => true
  | _, _, _ => false
  end.

Definition odd_perm (a b c : axis) : bool :=
  match a, b, c with
  | U, W, V | W, V, U | V, U, W => true
  | _, _, _ => false
  end.

(** Determinant one: an even permutation with an even number of flips, or
    an odd one with an odd number. *)
Definition is_rotation (r : rot) : bool :=
  let flips :=
    xorb (xorb (flipped (to_u r)) (flipped (to_v r))) (flipped (to_w r)) in
  let a := along (to_u r) in
  let b := along (to_v r) in
  let c := along (to_w r) in
  (even_perm a b c && negb flips) || (odd_perm a b c && flips).

Definition all_dirs : list dir :=
  [Dir false U; Dir true U; Dir false V; Dir true V; Dir false W; Dir true W].

Definition all_maps : list rot :=
  flat_map
    (fun u => flat_map (fun v => map (fun w => Rot u v w) all_dirs) all_dirs)
    all_dirs.

Definition cube_rotations : list rot := List.filter is_rotation all_maps.

End CubeSym.

Import CubeSym.

(** ** Iteration under a budget *)

Module Budget.

Inductive status := Converged | Unconverged.

Inductive warning := NotConverged (stage : string) (iterations : nat).

(** What a stage hands to its caller. *)
Record outcome (A : Type) := Outcome {
  artifact : A;
  tag : status;
  warnings : list warning
}.

Arguments Outcome {A}.
Arguments artifact {A}.
Arguments tag {A}.
Arguments warnings {A}.

Section Iterate.

Variable S : Type.
Variable step : S -> S.
(** [reached s s']: the step from [s] to [s'] meets the tolerance. *)
Variable reached : S -> S -> bool.

(** Modelled from the spec: the loops of the frame-field optimizer
    (machina.py) and of the parametrization solver (parametrization.py)
    are not among the sources.  "Convergence criterion: energy decrease
    below a relative tolerance or a maximum iteration count"; "iterating
    until residual norm falls below a relative tolerance or an iteration
    cap". *)
Fixpoint iterate (budget : nat) (s : S) : S * status :=
  match budget with
  | O => (s, Unconverged)
  | Datatypes.S b =>
      let s' := step s in
      if reached s s' then (s', Converged) else iterate b s'
  end.

(** Modelled from the spec: "non-convergence: optimizer or solver
    exceeds its iteration budget without reaching tolerance; non-fatal,
    returns best-effort artifact tagged as unconverged, propagated to the
    caller as a warning rather than swallowed". *)
Definition report (stage : string) (budget : nat) (r : S * status)
    : outcome S :=
  {| artifact := r.1;
     tag := r.2;
     warnings :=
       match r.2 with
       | Converged => []
       | Unconverged => [NotConverged stage budget]
       end |}.

(** Modelled from the spec: a stage that iterates, machina.py's optimizer
    or parametrization.py's solver, returns the report of its loop. *)
Definition run_stage (stage : string) (budget : nat) (s : S) : outcome S :=
  report stage budget (iterate budget s).

End Iterate.

End Budget.

Import Budget.

(** ** The frame field and its optimization *)

Module FrameField.

Local Open Scope Q_scope.

Definition Qlt_bool (x y : Q) : bool := negb (Qle_bool y x).

Definition sq (q : Q) : Q := q * q.

(** The first element of [best :: l] on which [f] is least. *)
Fixpoint argmin {A} (f : A -> Q) (best : A) (l : list A) : A :=
  match l with
  | [] => best
  | x :: l' =>
      if Qlt_bool (f x) (f best) then argmin f x l' else argmin f best l'
  end.

Section Optimization.

Variable frame : Type.

(** The angular distance between the frame of a tet and the frame of its
    neighbour transported through a matching. *)
Variable angle : frame -> frame -> rot -> Q.

(** The dual faces of the mesh, as pairs of tets. *)
Variable faces : list (nat * nat).

(** One frame for each tet. *)
Definition field : Type := nat -> frame.

Definition matchings : Type := nat -> nat -> rot.

(** Modelled from the spec: the matching computation of machina.py is not
    among the sources.  "For every dual face, compute the matching: the
    rotation, restricted to the 24 symmetries of the cube, minimizing
    angular distance between the two adjacent tets' frames." *)
Definition best_matching (fs ft : frame) : rot :=
  argmin (angle fs ft) rot_id cube_rotations.

(** Modelled from the spec: machina.py is not among the sources.  The
    matchings of all dual faces, recomputed from the frames. *)
Definition compute_matchings (f : field) : matchings :=
  fun s t => best_matching (f s) (f t).

(** Modelled from the spec: the energy of machina.py is not among the
    sources.  "The sum, over dual faces, of the squared angular mismatch
    between each tet's frame and its neighbor's frame transported through
    the current matching." *)
Definition energy (f : field) (m : matchings) : Q :=
  fold_right (fun st acc => sq (angle (f st.1) (f st.2) (m st.1 st.2)) + acc)
    0 faces.

(** The energy of a field under its own matchings. *)
Definition smoothness (f : field) : Q := energy f (compute_matchings f).

(** The quasi-Newton method: its limited memory, the increment that it
    proposes in the minimal rotation parametrization, and the step of a
    given length along an increment, projected back onto the rotations
    (with the pinned axis of a boundary tet kept). *)
Variable memory : Type.
Variable increment : Type.
Variable direction : memory -> field -> matchings -> increment.
Variable remember : memory -> field -> field -> memory.
Variable retract : field -> increment -> Q -> field.
Variable step_lengths : list Q.

(** Modelled from the spec: the line search of machina.py is not among the
    sources.  The trial steps are judged under the matchings of the outer
    iteration ("recomputing matchings every outer iteration, not every
    line-search trial"); the first one that lowers the energy is taken. *)
Fixpoint line_search (f : field) (m : matchings) (d : increment)
    (trials : list Q) : option field :=
  match trials with
  | [] => None
  | a :: rest =>
      let f' := retract f d a in
      if Qlt_bool (energy f' m) (energy f m) then Some f'
      else line_search f m d rest
  end.

(** Modelled from the spec: the outer iteration of machina.py is not among
    the sources.  "A failed line search simply retains the previous frame
    set"; the matchings are recomputed from the frames at the start of
    each outer iteration. *)
Definition outer_iteration (st : memory * field) : memory * field :=
  let m := compute_matchings st.2 in
  match line_search st.2 m (direction st.1 st.2 m) step_lengths with
  | Some f' => (remember st.1 st.2 f', f')
  | None => st
  end.

Variable rel_tol : Q.
Variable max_iter : nat.

(** Modelled from the spec: machina.py is not among the sources.
    "Convergence criterion: energy decrease below a relative tolerance." *)
Definition small_decrease (st st' : memory * field) : bool :=
  Qle_bool (smoothness st.2 - smoothness st'.2) (rel_tol * smoothness st.2).

(** Modelled from the spec: [optimize_framefield] of machina.py is not
    among the sources.  Outer iterations until the decrease is small or
    "a maximum iteration count"; "non-convergence after the iteration
    budget is reported as a warning with the best-effort field returned". *)
Definition optimize_framefield (st : memory * field)
    : outcome (memory * field) :=
  run_stage _ outer_iteration small_decrease "frame field" max_iter st.

End Optimization.

(** A small instance: frames that are maps of the three axes, at distance
    0 from a neighbour that the matching carries onto them and 1 otherwise;
    the frame of tet 1 is mirrored, so that no rotation matches it with its
    neighbours; a line search whose only proposal copies the frame of tet 0
    to every tet. *)
Definition demo_angle (fs ft : rot) (r : rot) : Q :=
  if decide (compose ft r = fs) then 0 else 1.

Definition demo_faces : list (nat * nat) := [(0, 1); (1, 2)]%nat.

Definition demo_retract (f : field rot) (d : unit) (a : Q) : field rot :=
  fun _ => f O.

Definition demo_field : field rot :=
  fun t => if (t =? 1)%nat then Rot (Dir true U) (Dir false V) (Dir false W)
           else rot_id.

End FrameField.

(** ** The singular graph *)

Module SingularGraph.

Section Classification.

(** The matching stored on the dual face between two tets. *)
Variable matching : nat -> nat -> rot.

(** Modelled from the spec: singularity.py is not among the sources.  The
    dual faces crossed on the walk around an edge, "the cyclic sequence of
    tets sharing it": through the tets [ring] and back to the first one,
    [t0]. *)
Fixpoint dual_faces_from (t0 : nat) (ring : list nat) : list (nat * nat) :=
  match ring with
  | [] => []
  | s :: rest =>
      match rest with
      | [] => [(s, t0)]
      | t :: _ => (s, t) :: dual_faces_from t0 rest
      end
  end.

Definition dual_faces_around (ring : list nat) : list (nat * nat) :=
  match ring with
  | [] => []
  | t0 :: _ => dual_faces_from t0 ring
  end.

Definition compose_along (fs : list (nat * nat)) (start : rot) : rot :=
  fold_left (fun acc st => compose (matching st.1 st.2) acc) fs start.

(** Modelled from the spec: singularity.py is not among the sources.
    "For each mesh edge, walk the cyclic sequence of tets sharing it,
    composing consecutive dual-face matchings in order." *)
Definition holonomy (ring : list nat) : rot :=
  compose_along (dual_faces_around ring) rot_id.

Inductive edge_class := Regular | Singular (defect : rot).

(** Modelled from the spec: singularity.py is not among the sources.  "An
    edge is singular iff this composed matching is not the identity; its
    singularity index is derived from the specific non-identity cube
    symmetry obtained." *)
Definition classify (ring : list nat) : edge_class :=
  if decide (holonomy ring = rot_id) then Regular
  else Singular (holonomy ring).

Definition is_singular (ring : list nat) : bool :=
  match classify ring with
  | Regular => false
  | Singular _ => true
  end.

End Classification.



End SingularGraph.

(** ** The solver of the parametrization *)

Module VolumeParametrizer.

Local Open Scope Q_scope.










End VolumeParametrizer.

(** ** Hexahedral cells *)

Module HexExtractor.

Local Open Scope Q_scope.

Record point := Point { px : Q; py : Q; pz : Q }.

Definition origin : point := Point 0 0 0.

Definition plus (a b : point) : point :=
  Point (px a + px b) (py a + py b) (pz a + pz b).

Definition minus (a b : point) : point :=
  Point (px a - px b) (py a - py b) (pz a - pz b).

Definition scale (k : Q) (a : point) : point :=
  Point (k * px a) (k * py a) (k * pz a).

(** The determinant of three vectors: six times the signed volume of the
    tetrahedron that they span with the origin. *)
Definition det3 (a b c : point) : Q :=
  px a * (py b * pz c - pz b * py c)
  - py a * (px b * pz c - pz b * px c)
  + pz a * (px b * py c - py b * px c).

(** A cell is the list of its corners; corner [i + 2 j + 4 k] is the one at
    offset [(i, j, k)] from the base lattice point. *)
Definition cell : Type := list point.

Definition corner (c : cell) (i : nat) : point := nth i c origin.

Definition centroid (c : cell) : point :=
  scale (1 # 8) (fold_right plus origin c).

(** The six quadrilateral faces, each counter-clockwise when seen from
    outside the cell. *)
Definition hex_faces : list (nat * nat * nat * nat) :=
  [(0, 4, 6, 2); (1, 3, 7, 5); (0, 1, 5, 4);
   (2, 6, 7, 3); (0, 2, 3, 1); (4, 5, 7, 6)]%nat.

Definition is_positive (q : Q) : bool := negb (Qle_bool q 0).

(** Positive when the triangle [a b c] is counter-clockwise seen from the
    side opposite to [o]. *)
Definition seen_from (o a b c : point) : Q :=
  det3 (minus a o) (minus b o) (minus c o).

(** Modelled from the spec: extraction.py is not among the sources.  "The
    resulting cell's 6 quad faces are planar-consistent and
    outward-oriented": a face turns its outside away from the centroid of
    the cell, whichever of its two diagonals splits it into triangles. *)
Definition face_outward (c : cell) (f : nat * nat * nat * nat) : bool :=
  let o := centroid c in
  let p0 := corner c f.1.1.1 in
  let p1 := corner c f.1.1.2 in
  let p2 := corner c f.1.2 in
  let p3 := corner c f.2 in
  is_positive (seen_from o p0 p1 p2) && is_positive (seen_from o p0 p2 p3)
  && is_positive (seen_from o p0 p1 p3) && is_positive (seen_from o p1 p2 p3).

(** Modelled from the spec: extraction.py is not among the sources.  A
    cell has "8 ordered vertex positions" and 6 faces that pass the test. *)
Definition well_formed (c : cell) : bool :=
  (length c =? 8)%nat && forallb (face_outward c) hex_faces.

(** Six times the volume enclosed by the faces, each split along its
    first diagonal (the sum of the determinants of the triangles of a
    closed surface). *)
Definition six_volume (c : cell) : Q :=
  fold_right
    (fun f acc =>
       det3 (corner c f.1.1.1) (corner c f.1.1.2) (corner c f.1.2)
       + det3 (corner c f.1.1.1) (corner c f.1.2) (corner c f.2)
       + acc)
    0 hex_faces.

Definition neighbours (base : Z * Z * Z) : list (Z * Z * Z) :=
  let i := base.1.1 in
  let j := base.1.2 in
  let k := base.2 in
  [(i, j, k); (i + 1, j, k); (i, j + 1, k); (i + 1, j + 1, k);
   (i, j, k + 1); (i + 1, j, k + 1); (i, j + 1, k + 1);
   (i + 1, j + 1, k + 1)]%Z.

Fixpoint all_found (l : list (option point)) : option (list point) :=
  match l with
  | [] => Some []
  | None :: _ => None
  | Some p :: rest =>
      match all_found rest with
      | Some ps => Some (p :: ps)
      | None => None
      end
  end.

Section Linking.

(** Tracing a lattice point of the parametrization into the tet that
    contains it: its position in the mesh, or nothing when it is not
    found within the tolerance. *)
Variable locate : Z * Z * Z -> option point.

(** Modelled from the spec: extraction.py is not among the sources.
    "Linking them into a hexahedron only when all 8 corners are found and
    the resulting cell's 6 quad faces are planar-consistent and
    outward-oriented"; "if unresolved, the candidate hex is dropped rather
    than emitted malformed." *)
Definition link (base : Z * Z * Z) : option cell :=
  match all_found (map locate (neighbours base)) with
  | Some c => if well_formed c then Some c else None
  | None => None
  end.

(** Modelled from the spec: extraction.py is not among the sources.  The
    cells linked from the lattice points, in their order; a candidate that
    is not linked is dropped. *)
Fixpoint extract (lattice : list (Z * Z * Z)) : list cell :=
  match lattice with
  | [] => []
  | base :: rest =>
      match link base with
      | Some c => c :: extract rest
      | None => extract rest
      end
  end.

(** "Logged as a count of dropped cells." *)
Definition dropped (lattice : list (Z * Z * Z)) : nat :=
  (length lattice - length (extract lattice))%nat.

End Linking.

(** A parametrization that is the identity on the block of lattice points
    from (0,0,0) to (2,1,1), and finds nothing outside it. *)
Definition demo_locate (l : Z * Z * Z) : option point :=
  if ((0 <=? l.1.1) && (l.1.1 <=? 2) && (0 <=? l.1.2) && (l.1.2 <=? 1)
      && (0 <=? l.2) && (l.2 <=? 1))%Z
  then Some (Point (inject_Z l.1.1) (inject_Z l.1.2) (inject_Z l.2))
  else None.

Definition demo_lattice : list (Z * Z * Z) :=
  [(0, 0, 0); (1, 0, 0); (2, 0, 0)]%Z.

End HexExtractor.

(** ** The test for an isoline point

    Line 95 of extraction.py, as the warning recorded in the notebook's
    output quotes it: [if iso_pt != None:]. *)

Module Isolines.







End Isolines.

(** * Properties *)

Import Notebook.
Local Open Scope cell_scope.

(** ** Outcome predicates of the cell monad *)

Lemma wp_ret {A} (a : A) Q k : Q (inr a) k -> wp (ret a) Q k.
Proof. exact (fun H => H). Qed.

Lemma wp_bind {A B} (m : M A) (f : A -> M B) Q k :
  wp m (fun r k' =>
          match r with
          | inr a => wp (f a) Q k'
          | inl e => Q (inl e) k'
          end) k ->
  wp (bind m f) Q k.
Proof.
  unfold wp, bind. destruct (m k) as [[e|a] k']; simpl; auto.
Qed.

Lemma wp_print s e Q k :
  Q (inr tt)
    {| ns := ns k;
       wd := {| heap := heap (wd k); stdout := stdout (wd k) ++ s ++ e |};
       trace := trace k |} ->
  wp (print s e) Q k.
Proof. exact (fun H => H). Qed.

Lemma wp_set_ns f Q k :
  Q (inr tt) {| ns := f (ns k); wd := wd k; trace := trace k |} ->
  wp (set_ns f) Q k.
Proof. exact (fun H => H). Qed.

Lemma wp_name x field Q k :
  match field (ns k) with
  | Some v => Q (inr v) k
  | None => Q (inl (NameError x)) k
  end ->
  wp (name x field) Q k.
Proof. unfold wp, name. destruct (field (ns k)); auto. Qed.

Lemma wp_getattr v attr Q k :
  (forall r, getattr_in (wd k) v attr = r -> Q r k) ->
  wp (getattr v attr) Q k.
Proof. unfold wp, getattr. simpl. auto. Qed.

Lemma wp_lift {A} (r : exn + A) Q k :
  (forall x, r = x -> Q x k) -> wp (lift r) Q k.
Proof. intros H. exact (H r eq_refl). Qed.

Lemma wp_call impl c args kwargs Q k :
  (forall r w, impl c args kwargs (wd k) = (r, w) ->
     match r with
     | inr v =>
         Q (inr v)
           {| ns := ns k; wd := w;
              trace := (trace k ++ [EvCall c args kwargs (heap (wd k))])
                         ++ [EvRet c v (heap w)] |}
     | inl e =>
         Q (inl e)
           {| ns := ns k; wd := w;
              trace := (trace k ++ [EvCall c args kwargs (heap (wd k))])
                         ++ [EvRaise c e] |}
     end) ->
  wp (call impl c args kwargs) Q k.
Proof.
  intros H. unfold wp, call.
  specialize (H (impl c args kwargs (wd k)).1 (impl c args kwargs (wd k)).2).
  destruct (impl c args kwargs (wd k)) as [[e|v] w]; simpl in *; auto.
Qed.

(** One step of a cell: the goal becomes the outcome predicate of what is
    left to run; a call, an attribute and a subscript branch on their
    outcome. *)
Ltac cell_step :=
  lazymatch goal with
  | |- wp (bind _ _) _ _ => apply wp_bind
  | |- wp (ret _) _ _ => apply wp_ret
  | |- wp (print _ _) _ _ => apply wp_print
  | |- wp flush _ _ => apply wp_ret
  | |- wp (set_ns _) _ _ => apply wp_set_ns
  | |- wp (name _ _) _ _ => apply wp_name
  | |- wp (lift _) _ _ => apply wp_lift; intros [?e|?v] ?Hlift
  | |- wp (getattr _ _) _ _ =>
      apply wp_getattr; intros [?e|?v] _
  | |- wp (call _ _ _ _) _ _ =>
      apply wp_call; intros [?e|?v] ?w _
  end;
  cbn [ns wd trace heap stdout app tri_mesh machina singular_vertices
       uvw_map iso_pts set_tri_mesh set_machina set_singular_vertices
       set_uvw_map set_iso_pts].

Ltac run_cells :=
  unfold run_all, cell_imports, cell_tetmesh, cell_framefield,
    cell_singular, cell_parametrize, cell_extract, cell_empty, fresh;
  repeat cell_step.

(** ** The order of the stages *)

Lemma run_all_forward impl n0 w0 :
  forward_from [] (trace (run_all impl (fresh n0 w0)).2) = true.
Proof.
  change (wp (run_all impl)
            (fun _ k => forward_from [] (trace k) = true) (fresh n0 w0)).
  run_cells; reflexivity.
Qed.

Lemma all_callees_complete c : In c all_callees.
Proof. destruct c; simpl; tauto. Qed.

Lemma has_returned_In done c : has_returned done c = true -> In c done.
Proof.
  unfold has_returned. rewrite existsb_exists.
  intros [d [Hd Heq]]. apply bool_decide_eq_true in Heq. congruence.
Qed.

Lemma upstream_done_sound done s c' s' :
  upstream_done done s = true ->
  stage_of c' = Some s' -> upstream s' s -> In c' done.
Proof.
  unfold upstream_done, upstream. rewrite forallb_forall.
  intros Hall Hs' Hlt. specialize (Hall c' (all_callees_complete c')).
  rewrite Hs' in Hall.
  apply Nat.ltb_lt in Hlt. rewrite Hlt in Hall.
  now apply has_returned_In.
Qed.

Lemma not_before_sound s e2 c2 s2 :
  not_before s e2 = true ->
  called e2 = Some c2 -> stage_of c2 = Some s2 ->
  (stage_index s <= stage_index s2)%nat.
Proof.
  unfold not_before. intros H Hc Hs. rewrite Hc, Hs in H.
  now apply Nat.leb_le.
Qed.

Lemma forward_from_sound pre :
  forall done e post c s,
    forward_from done (pre ++ e :: post) = true ->
    called e = Some c -> stage_of c = Some s ->
    (forall c' s', stage_of c' = Some s' -> upstream s' s ->
       In c' done \/ exists r h', In (EvRet c' r h') pre) /\
    (forall e2 c2 s2, In e2 post ->
       called e2 = Some c2 -> stage_of c2 = Some s2 ->
       (stage_index s <= stage_index s2)%nat).
Proof.
  induction pre as [|e0 pre IH]; intros done e post c s Hfw Hc Hs.
  - destruct e as [c0 a kw h| |]; simpl in Hc; try discriminate.
    injection Hc as ->. simpl in Hfw. rewrite Hs in Hfw.
    apply andb_prop in Hfw as [Hnow _].
    apply andb_prop in Hnow as [Hup Hlater].
    split.
    + intros c' s' Hs' Hlt. left. eapply upstream_done_sound; eauto.
    + intros e2 c2 s2 Hin Hc2 Hs2.
      rewrite forallb_forall in Hlater.
      eapply not_before_sound; eauto.
  - destruct e0 as [c0 a0 kw0 h0|c0 r0 h0|c0 x0]; simpl in Hfw.
    + apply andb_prop in Hfw as [_ Hfw].
      destruct (IH _ _ _ _ _ Hfw Hc Hs) as [Hup Hlater]. split; auto.
      intros c' s' Hs' Hlt.
      destruct (Hup c' s' Hs' Hlt) as [Hd|[r [h' Hin]]]; auto.
      right. exists r, h'. now right.
    + destruct (IH _ _ _ _ _ Hfw Hc Hs) as [Hup Hlater]. split; auto.
      intros c' s' Hs' Hlt.
      destruct (Hup c' s' Hs' Hlt) as [[->|Hd]|[r [h' Hin]]]; auto.
      * right. exists r0, h0. now left.
      * right. exists r, h'. now right.
    + destruct (IH _ _ _ _ _ Hfw Hc Hs) as [Hup Hlater]. split; auto.
      intros c' s' Hs' Hlt.
      destruct (Hup c' s' Hs' Hlt) as [Hd|[r [h' Hin]]]; auto.
      right. exists r, h'. now right.
Qed.

(** C1. In a run of the notebook's cells, whenever a callable of a stage is
    called, every callable of every earlier stage (mesh, then frame field,
    then singular graph, then parametrization, then extraction) has
    returned before, and no callable of an earlier stage is called
    afterwards.  The imported callables and the kernel that the run starts
    in are arbitrary. *)
Theorem stages_run_in_forward_order
    (impl : callee -> pyfun) (n0 : namespace) (w0 : world)
    (pre post : list event) (e : event) (c : callee) (s : stage) :
  trace (run_all impl (fresh n0 w0)).2 = pre ++ e :: post ->
  called e = Some c ->
  stage_of c = Some s ->
  (forall c' s', stage_of c' = Some s' -> upstream s' s ->
     exists r h', In (EvRet c' r h') pre) /\
  (forall e2 c2 s2, In e2 post ->
     called e2 = Some c2 -> stage_of c2 = Some s2 ->
     (stage_index s <= stage_index s2)%nat).
Proof.
  intros Htr Hc Hs.
  pose proof (run_all_forward impl n0 w0) as Hfw. rewrite Htr in Hfw.
  destruct (forward_from_sound pre [] e post c s Hfw Hc Hs) as [Hup Hlater].
  split; [|exact Hlater].
  intros c' s' Hs' Hlt.
  destruct (Hup c' s' Hs' Hlt) as [[]|Hex]. exact Hex.
Qed.

(** Events of the run on the stand-ins, by position. *)
Lemma demo_event_at i :
  (i < length demo_trace)%nat -> demo_trace !! i = Some (demo_event i).
Proof.
  intros Hi. unfold demo_event.
  destruct (nth_lookup_or_length demo_trace i (EvRaise say_ok TypeError))
    as [H|H]; [exact H | lia].
Qed.

Lemma demo_event_In i :
  (i < length demo_trace)%nat -> In (demo_event i) demo_trace.
Proof. intros Hi. exact (nth_In demo_trace (EvRaise say_ok TypeError) Hi). Qed.

Lemma demo_trace_length : length demo_trace = 48%nat.
Proof. vm_compute. reflexivity. Qed.

Ltac demo_index := rewrite demo_trace_length; lia.

Lemma stages_run_in_forward_order_witness :
  demo_trace = take 38 demo_trace ++ demo_event 38 :: drop 39 demo_trace /\
  called (demo_event 38) = Some parametrize_volume /\
  stage_of parametrize_volume = Some VolumeParametrizer /\
  (forall c' s', stage_of c' = Some s' -> upstream s' VolumeParametrizer ->
     exists r h', In (EvRet c' r h') (take 38 demo_trace)) /\
  (forall e2 c2 s2, In e2 (drop 39 demo_trace) ->
     called e2 = Some c2 -> stage_of c2 = Some s2 ->
     (stage_index VolumeParametrizer <= stage_index s2)%nat).
Proof.
  assert (H1 : demo_trace
               = take 38 demo_trace ++ demo_event 38 :: drop 39 demo_trace).
  { symmetry. apply take_drop_middle, demo_event_at. demo_index. }
  assert (H2 : called (demo_event 38) = Some parametrize_volume)
    by reflexivity.
  assert (H3 : stage_of parametrize_volume = Some VolumeParametrizer)
    by reflexivity.
  split; [exact H1|]. split; [exact H2|]. split; [exact H3|].
  exact (stages_run_in_forward_order demo_impl empty_namespace empty_world
           (take 38 demo_trace) (drop 39 demo_trace) (demo_event 38)
           parametrize_volume VolumeParametrizer H1 H2 H3).
Defined.

Lemma demo_In i e :
  (i < length demo_trace)%nat -> demo_event i = e -> In e demo_trace.
Proof. intros Hi <-. exact (demo_event_In i Hi). Qed.

(** ** What the parametrization is given *)

(** Membership in a trace that is written out. *)
Ltac find_event := simpl; solve [repeat first [left; reflexivity | right]].

Ltac split_event H :=
  simpl in H; repeat (destruct H as [H|H]; [try discriminate H|]);
  try contradiction.

(** C2, as amended.  When [parametrize_volume] is called, its arguments are
    the object that [HexMachina] returned, the component at index 2 of what
    [singular_graph] returned, and the scale 3.0, and nothing else. *)
Theorem singular_vertices_passed_on
    (impl : callee -> pyfun) (n0 : namespace) (w0 : world)
    (args : list value) (kwargs : list (string * value))
    (h : gmap loc (gmap string value)) :
  In (EvCall parametrize_volume args kwargs h)
     (trace (run_all impl (fresh n0 w0)).2) ->
  exists m hm r hr sv,
    In (EvRet HexMachina m hm) (trace (run_all impl (fresh n0 w0)).2) /\
    In (EvRet singular_graph r hr) (trace (run_all impl (fresh n0 w0)).2) /\
    subscript r 2 = inr sv /\
    args = [m; sv; VFloat 3] /\ kwargs = [].
Proof.
  revert args kwargs h.
  change (wp (run_all impl)
            (fun _ k => forall args kwargs h,
               In (EvCall parametrize_volume args kwargs h) (trace k) ->
               exists m hm r hr sv,
                 In (EvRet HexMachina m hm) (trace k) /\
                 In (EvRet singular_graph r hr) (trace k) /\
                 subscript r 2 = inr sv /\
                 args = [m; sv; VFloat 3] /\ kwargs = [])
            (fresh n0 w0)).
  run_cells; intros args kwargs h Hin; split_event Hin;
    injection Hin as <- <- <-;
    eexists _, _, _, _, _;
    (split; [find_event|]); (split; [find_event|]);
    (split; [eassumption|]); split; reflexivity.
Qed.

Lemma singular_vertices_passed_on_witness :
  In (EvCall parametrize_volume
        [VRef 4%positive; VTuple [VInt 2]; VFloat 3] [] (demo_heap 38))
     demo_trace /\
  exists m hm r hr sv,
    In (EvRet HexMachina m hm) demo_trace /\
    In (EvRet singular_graph r hr) demo_trace /\
    subscript r 2 = inr sv /\
    [VRef 4%positive; VTuple [VInt 2]; VFloat 3] = [m; sv; VFloat 3] /\
    @nil (string * value) = [].
Proof.
  assert (H : In (EvCall parametrize_volume
                    [VRef 4%positive; VTuple [VInt 2]; VFloat 3] []
                    (demo_heap 38)) demo_trace).
  { apply (demo_In 38); [demo_index | reflexivity]. }
  split; [exact H|].
  exact (singular_vertices_passed_on demo_impl empty_namespace empty_world
           _ _ _ H).
Defined.

(** C2, as it is stated, fails: of the three components that
    [singular_graph] returns in the run on the stand-ins, the first two
    never reach [parametrize_volume], and neither does the tuple itself. *)
Lemma full_output_not_passed : ~ full_output_passed demo_trace.
Proof.
  intros H.
  assert (Hret : In (EvRet singular_graph
                       (VTuple [VTuple [VInt 0]; VTuple [VInt 1];
                                VTuple [VInt 2]])
                       (demo_heap 33)) demo_trace).
  { apply (demo_In 33); [demo_index | reflexivity]. }
  assert (Hcall : In (EvCall parametrize_volume
                        [VRef 4%positive; VTuple [VInt 2]; VFloat 3] []
                        (demo_heap 38)) demo_trace).
  { apply (demo_In 38); [demo_index | reflexivity]. }
  pose proof (H _ _ _ _ _ Hret Hcall) as Hpassed.
  clear H Hret Hcall.
  destruct Hpassed as [Hin|Hall].
  - destruct Hin as [Hin|[Hin|[Hin|[]]]]; discriminate Hin.
  - assert (Hc : component (VTuple [VInt 0])
                   (VTuple [VTuple [VInt 0]; VTuple [VInt 1];
                            VTuple [VInt 2]])).
    { eexists. split; [reflexivity|]. now left. }
    destruct (Hall _ Hc) as [Hin|[Hin|[Hin|[]]]]; discriminate Hin.
Qed.

(** ** One mutable object for all stages *)

Ltac machina_receiver Hin Htm :=
  simpl in Hin;
  repeat (destruct Hin as [Hin|Hin];
          [ first
              [ discriminate Hin
              | injection Hin as <- <- <- <-;
                first
                  [ discriminate Htm
                  | eexists _, _, _; split; [find_event | reflexivity] ] ]
          | ]);
  contradiction.

(** C3, as amended.  The cells themselves change no object: the heap in
    which a call starts is the heap that the call before it left.  They
    make no copy either: [compute_dual], [init_framefield],
    [optimize_framefield], [singular_graph], [parametrize_volume] and
    [extract_isolines] all receive, as first argument, the very object that
    [HexMachina] returned, and [extract_isolines] receives next to it what
    [parametrize_volume] returned. *)
Theorem stages_share_one_machina
    (impl : callee -> pyfun) (n0 : namespace) (w0 : world) :
  handed_over (trace (run_all impl (fresh n0 w0)).2) /\
  (forall c args kwargs h,
     In (EvCall c args kwargs h) (trace (run_all impl (fresh n0 w0)).2) ->
     takes_machina c = true ->
     exists m hm rest,
       In (EvRet HexMachina m hm) (trace (run_all impl (fresh n0 w0)).2) /\
       args = m :: rest) /\
  (forall args kwargs h,
     In (EvCall extract_isolines args kwargs h)
        (trace (run_all impl (fresh n0 w0)).2) ->
     exists m u hu,
       In (EvRet parametrize_volume u hu)
          (trace (run_all impl (fresh n0 w0)).2) /\
       args = [m; u]).
Proof.
  change (wp (run_all impl)
            (fun _ k =>
               handed_over (trace k) /\
               (forall c args kwargs h,
                  In (EvCall c args kwargs h) (trace k) ->
                  takes_machina c = true ->
                  exists m hm rest,
                    In (EvRet HexMachina m hm) (trace k) /\
                    args = m :: rest) /\
               (forall args kwargs h,
                  In (EvCall extract_isolines args kwargs h) (trace k) ->
                  exists m u hu,
                    In (EvRet parametrize_volume u hu) (trace k) /\
                    args = [m; u]))
            (fresh n0 w0)).
  run_cells;
    (split;
     [ simpl; repeat split
     | split;
       [ intros c args kwargs h Hin Htm; machina_receiver Hin Htm
       | intros args kwargs h Hin; split_event Hin;
         injection Hin as <- <- <-;
         eexists _, _, _; (split; [find_event | reflexivity]) ] ]).
Qed.

Lemma stages_share_one_machina_witness :
  In (EvCall init_framefield [VRef 4%positive] [] (demo_heap 22))
     demo_trace /\
  takes_machina init_framefield = true /\
  exists m hm rest,
    In (EvRet HexMachina m hm) demo_trace /\ [VRef 4%positive] = m :: rest.
Proof.
  assert (H : In (EvCall init_framefield [VRef 4%positive] []
                    (demo_heap 22)) demo_trace).
  { apply (demo_In 22); [demo_index | reflexivity]. }
  split; [exact H|]. split; [reflexivity|].
  exact (proj1 (proj2 (stages_share_one_machina demo_impl empty_namespace
                         empty_world)) _ _ _ _ H eq_refl).
Defined.

(** C3, as it is stated, fails: in the run on the stand-ins the object that
    [HexMachina] returned has no [frames] attribute when the mesh stage
    hands it over and has one after [init_framefield], a callable of the
    next stage, has run on it. *)
Lemma machina_updated_in_place : ~ artifacts_frozen demo_trace.
Proof.
  intros H.
  assert (H1 : demo_trace !! 5%nat
               = Some (EvRet HexMachina (VRef 4%positive) (demo_heap 5))).
  { rewrite demo_event_at by demo_index. reflexivity. }
  assert (H2 : demo_trace !! 23%nat
               = Some (EvRet init_framefield VNone (demo_heap 23))).
  { rewrite demo_event_at by demo_index. reflexivity. }
  assert (Hup : upstream TetMesh FrameField) by (unfold upstream; simpl; lia).
  pose proof (H 5%nat 23%nat HexMachina 4%positive (demo_heap 5)
                init_framefield VNone (demo_heap 23) TetMesh FrameField
                H1 H2 ltac:(lia) eq_refl eq_refl Hup) as Heq.
  clear H H1 H2.
  apply (f_equal (fun o => o ≫= (fun a => a !! "frames"))) in Heq.
  vm_compute in Heq. discriminate Heq.
Qed.

(** ** More on a run of all cells *)

(** X1.  The callables are called in the order of the document: the calls
    of a run are an initial part of the list of the program's calls, and
    all of it when the run completes. *)
Theorem calls_in_document_order
    (impl : callee -> pyfun) (n0 : namespace) (w0 : world) :
  (exists rest,
     program_calls = calls (trace (run_all impl (fresh n0 w0)).2) ++ rest) /\
  match (run_all impl (fresh n0 w0)).1 with
  | inr _ => calls (trace (run_all impl (fresh n0 w0)).2) = program_calls
  | inl _ => True
  end.
Proof.
  change (wp (run_all impl)
            (fun r k =>
               (exists rest, program_calls = calls (trace k) ++ rest) /\
               match r with
               | inr _ => calls (trace k) = program_calls
               | inl _ => True
               end)
            (fresh n0 w0)).
  run_cells; (split; [eexists; reflexivity | exact I || reflexivity]).
Qed.



Lemma getattr_in_heap w1 w2 v attr :
  heap w1 = heap w2 -> getattr_in w1 v attr = getattr_in w2 v attr.
Proof. unfold getattr_in. now intros ->. Qed.

(** A step that keeps what an attribute read gave. *)
Ltac cell_step_attr :=
  lazymatch goal with
  | |- wp (bind _ _) _ _ => apply wp_bind
  | |- wp (ret _) _ _ => apply wp_ret
  | |- wp (print _ _) _ _ => apply wp_print
  | |- wp flush _ _ => apply wp_ret
  | |- wp (set_ns _) _ _ => apply wp_set_ns
  | |- wp (name _ _) _ _ => apply wp_name
  | |- wp (lift _) _ _ => apply wp_lift; intros [?e|?v] ?Hlift
  | |- wp (getattr _ _) _ _ =>
      apply wp_getattr; intros [?e|?v] ?Hattr; cbn [wd] in Hattr
  | |- wp (call _ _ _ _) _ _ =>
      apply wp_call; intros [?e|?v] ?w _
  end;
  cbn [ns wd trace heap stdout app tri_mesh machina singular_vertices
       uvw_map iso_pts set_tri_mesh set_machina set_singular_vertices
       set_uvw_map set_iso_pts].

Ltac run_cells_attr :=
  unfold run_all, cell_imports, cell_tetmesh, cell_framefield,
    cell_singular, cell_parametrize, cell_extract, cell_empty, fresh;
  repeat cell_step_attr.



(** ** A run does not read what the kernel held before *)

Lemma wp2_ret {A} (a : A) Q k1 k2 :
  Q (inr a) k1 (inr a) k2 -> wp2 (ret a) Q k1 k2.
Proof. exact (fun H => H). Qed.

Lemma wp2_bind {A B} (m : M A) (f : A -> M B) Q k1 k2 :
  wp2 m (fun r1 k1' r2 k2' =>
           match r1, r2 with
           | inr a1, inr a2 => a1 = a2 /\ wp2 (f a1) Q k1' k2'
           | inl e1, inl e2 => Q (inl e1) k1' (inl e2) k2'
           | _, _ => False
           end) k1 k2 ->
  wp2 (bind m f) Q k1 k2.
Proof.
  unfold wp2, bind.
  destruct (m k1) as [[e1|a1] k1'], (m k2) as [[e2|a2] k2']; simpl;
    try tauto.
  now intros [<- H].
Qed.

Lemma wp2_print s e Q k1 k2 :
  Q (inr tt)
    {| ns := ns k1;
       wd := {| heap := heap (wd k1); stdout := stdout (wd k1) ++ s ++ e |};
       trace := trace k1 |}
    (inr tt)
    {| ns := ns k2;
       wd := {| heap := heap (wd k2); stdout := stdout (wd k2) ++ s ++ e |};
       trace := trace k2 |} ->
  wp2 (print s e) Q k1 k2.
Proof. exact (fun H => H). Qed.

Lemma wp2_set_ns f Q k1 k2 :
  Q (inr tt) {| ns := f (ns k1); wd := wd k1; trace := trace k1 |}
    (inr tt) {| ns := f (ns k2); wd := wd k2; trace := trace k2 |} ->
  wp2 (set_ns f) Q k1 k2.
Proof. exact (fun H => H). Qed.

Lemma wp2_name x field v Q k1 k2 :
  field (ns k1) = Some v -> field (ns k2) = Some v ->
  Q (inr v) k1 (inr v) k2 ->
  wp2 (name x field) Q k1 k2.
Proof. unfold wp2, name. now intros -> ->. Qed.

Lemma wp2_getattr v attr Q k1 k2 :
  wd k1 = wd k2 ->
  (forall r, Q r k1 r k2) ->
  wp2 (getattr v attr) Q k1 k2.
Proof. unfold wp2, getattr. simpl. intros ->. auto. Qed.

Lemma wp2_lift {A} (r : exn + A) Q k1 k2 :
  Q r k1 r k2 -> wp2 (lift r) Q k1 k2.
Proof. exact (fun H => H). Qed.

Lemma wp2_call impl c args kwargs Q k1 k2 :
  wd k1 = wd k2 ->
  (forall r w,
     match r with
     | inr v =>
         Q (inr v)
           {| ns := ns k1; wd := w;
              trace := (trace k1 ++ [EvCall c args kwargs (heap (wd k1))])
                         ++ [EvRet c v (heap w)] |}
           (inr v)
           {| ns := ns k2; wd := w;
              trace := (trace k2 ++ [EvCall c args kwargs (heap (wd k2))])
                         ++ [EvRet c v (heap w)] |}
     | inl e =>
         Q (inl e)
           {| ns := ns k1; wd := w;
              trace := (trace k1 ++ [EvCall c args kwargs (heap (wd k1))])
                         ++ [EvRaise c e] |}
           (inl e)
           {| ns := ns k2; wd := w;
              trace := (trace k2 ++ [EvCall c args kwargs (heap (wd k2))])
                         ++ [EvRaise c e] |}
     end) ->
  wp2 (call impl c args kwargs) Q k1 k2.
Proof.
  intros Hw H. unfold wp2, call. rewrite <- Hw in *.
  specialize (H (impl c args kwargs (wd k1)).1
                (impl c args kwargs (wd k1)).2).
  destruct (impl c args kwargs (wd k1)) as [[e|v] w]; simpl in *; auto.
Qed.

(** One step of two runs side by side. *)
Ltac pair_step :=
  lazymatch goal with
  | |- wp2 (bind _ _) _ _ _ => apply wp2_bind
  | |- wp2 (ret _) _ _ _ => apply wp2_ret
  | |- wp2 (print _ _) _ _ _ => apply wp2_print
  | |- wp2 flush _ _ _ => apply wp2_ret
  | |- wp2 (set_ns _) _ _ _ => apply wp2_set_ns
  | |- wp2 (name _ _) _ _ _ =>
      eapply wp2_name; [reflexivity | reflexivity |]
  | |- wp2 (lift _) _ _ _ => apply wp2_lift
  | |- wp2 (getattr _ _) _ _ _ =>
      apply wp2_getattr; [reflexivity | intros [?e|?v]]
  | |- wp2 (call _ _ _ _) _ _ _ =>
      apply wp2_call; [reflexivity | intros [?e|?v] ?w]
  | |- _ = _ /\ wp2 _ _ _ _ => split; [reflexivity|]
  | |- match ?r with inl _ => _ | inr _ => _ end =>
      destruct r as [?e|?v]
  end;
  cbn [ns wd trace heap stdout app tri_mesh machina singular_vertices
       uvw_map iso_pts set_tri_mesh set_machina set_singular_vertices
       set_uvw_map set_iso_pts].

(** X3.  A run of all cells reads no name that it has not bound itself:
    started in two kernels that differ only in the names they hold, it
    has the same outcome, makes the same calls with the same arguments and
    leaves the same world. *)
Theorem run_ignores_old_names
    (impl : callee -> pyfun) (n1 n2 : namespace) (w0 : world) :
  (run_all impl (fresh n1 w0)).1 = (run_all impl (fresh n2 w0)).1 /\
  wd (run_all impl (fresh n1 w0)).2 = wd (run_all impl (fresh n2 w0)).2 /\
  trace (run_all impl (fresh n1 w0)).2
  = trace (run_all impl (fresh n2 w0)).2.
Proof.
  change (wp2 (run_all impl)
            (fun r1 k1 r2 k2 =>
               r1 = r2 /\ wd k1 = wd k2 /\ trace k1 = trace k2)
            (fresh n1 w0) (fresh n2 w0)).
  unfold run_all, cell_imports, cell_tetmesh, cell_framefield,
    cell_singular, cell_parametrize, cell_extract, cell_empty, fresh.
  repeat pair_step.
  all: repeat split; reflexivity.
Qed.

(** ** What a complete run leaves, and what is exported *)

(** X4.  After a run that completes, the five names of the notebook are
    bound to what [load_mesh], [HexMachina], the subscript of
    [singular_graph]'s result, [parametrize_volume] and [extract_isolines]
    returned in that run. *)
Theorem complete_run_binds_results
    (impl : callee -> pyfun) (n0 : namespace) (w0 : world) :
  (run_all impl (fresh n0 w0)).1 = inr tt ->
  exists t ht m hm r hr sv u hu p hp,
    ns (run_all impl (fresh n0 w0)).2
    = {| tri_mesh := Some t; machina := Some m;
         singular_vertices := Some sv; uvw_map := Some u;
         iso_pts := Some p |} /\
    In (EvRet load_mesh t ht) (trace (run_all impl (fresh n0 w0)).2) /\
    In (EvRet HexMachina m hm) (trace (run_all impl (fresh n0 w0)).2) /\
    In (EvRet singular_graph r hr) (trace (run_all impl (fresh n0 w0)).2) /\
    subscript r 2 = inr sv /\
    In (EvRet parametrize_volume u hu)
       (trace (run_all impl (fresh n0 w0)).2) /\
    In (EvRet extract_isolines p hp) (trace (run_all impl (fresh n0 w0)).2).
Proof.
  change (wp (run_all impl)
            (fun r0 k =>
               r0 = inr tt ->
               exists t ht m hm r hr sv u hu p hp,
                 ns k
                 = {| tri_mesh := Some t; machina := Some m;
                      singular_vertices := Some sv; uvw_map := Some u;
                      iso_pts := Some p |} /\
                 In (EvRet load_mesh t ht) (trace k) /\
                 In (EvRet HexMachina m hm) (trace k) /\
                 In (EvRet singular_graph r hr) (trace k) /\
                 subscript r 2 = inr sv /\
                 In (EvRet parametrize_volume u hu) (trace k) /\
                 In (EvRet extract_isolines p hp) (trace k))
            (fresh n0 w0)).
  run_cells; intros Hdone; try discriminate Hdone.
  eexists _, _, _, _, _, _, _, _, _, _, _.
  split; [reflexivity|].
  split; [find_event|]. split; [find_event|]. split; [find_event|].
  split; [eassumption|]. split; find_event.
Qed.

Ltac current_attribute :=
  match goal with
  | H : getattr_in ?w ?v ?a = inr ?x |- getattr_in _ ?v ?a = inr ?x =>
      rewrite <- H; apply getattr_in_heap; reflexivity
  end.

Ltac attribute_reader Hin Hread :=
  simpl in Hin;
  repeat (destruct Hin as [Hin|Hin];
          [ first
              [ discriminate Hin
              | injection Hin as <- <- <- <-;
                simpl in Hread;
                first
                  [ discriminate Hread
                  | injection Hread as <- <-;
                    eexists _, _, _;
                    (split; [find_event|]);
                    (split; [|reflexivity]);
                    current_attribute ] ]
          | ]);
  contradiction.

(** X5.  What is exported or given to the surface methods is read from the
    [machina] object at the moment of the call: the first argument of
    [vtk_tetmesh], of [compute_normals], [compute_curvatures] and
    [vtk_curvature], and of [vtk_framefield] is the [tet_mesh],
    [surf_mesh] and [frames] attribute that the object returned by
    [HexMachina] has in the heap in which the call starts. *)
Theorem exports_read_current_attributes
    (impl : callee -> pyfun) (n0 : namespace) (w0 : world)
    (c : callee) (args : list value) (kwargs : list (string * value))
    (h : gmap loc (gmap string value)) (attr : string) (rest : list value) :
  In (EvCall c args kwargs h) (trace (run_all impl (fresh n0 w0)).2) ->
  attribute_read c = Some (attr, rest) ->
  exists m hm x,
    In (EvRet HexMachina m hm) (trace (run_all impl (fresh n0 w0)).2) /\
    getattr_in (heap_only h) m attr = inr x /\
    args = x :: rest.
Proof.
  revert c args kwargs h attr rest.
  change (wp (run_all impl)
            (fun _ k =>
               forall c args kwargs h attr rest,
                 In (EvCall c args kwargs h) (trace k) ->
                 attribute_read c = Some (attr, rest) ->
                 exists m hm x,
                   In (EvRet HexMachina m hm) (trace k) /\
                   getattr_in (heap_only h) m attr = inr x /\
                   args = x :: rest)
            (fresh n0 w0)).
  run_cells_attr; intros c args kwargs h attr rest Hin Hread;
    attribute_reader Hin Hread.
Qed.

(** ** Sessions: cells run in any order *)

Lemma all_justified_nil : all_justified [].
Proof. intros [|x pre] e post H; discriminate H. Qed.

Lemma all_justified_snoc tr x :
  all_justified tr -> justified tr x -> all_justified (tr ++ [x]).
Proof.
  intros Htr Hx pre e post Heq.
  induction post as [|y post' _] using rev_ind.
  - apply app_inj_tail in Heq as [<- <-]. exact Hx.
  - change (pre ++ e :: post' ++ [y]) with (pre ++ (e :: post') ++ [y])
      in Heq.
    rewrite app_assoc in Heq. apply app_inj_tail in Heq as [-> _].
    now apply (Htr pre e post').
Qed.

(** A step of a cell that starts in a kernel of which only an invariant is
    known: a name is bound or not. *)
Ltac session_step :=
  lazymatch goal with
  | |- wp (bind _ _) _ _ => apply wp_bind
  | |- wp (ret _) _ _ => apply wp_ret
  | |- wp (print _ _) _ _ => apply wp_print
  | |- wp flush _ _ => apply wp_ret
  | |- wp (set_ns _) _ _ => apply wp_set_ns
  | |- wp (name _ _) _ _ => apply wp_name
  | |- wp (lift _) _ _ => apply wp_lift; intros [?e|?v] ?Hlift
  | |- wp (getattr _ _) _ _ => apply wp_getattr; intros [?e|?v] _
  | |- wp (call _ _ _ _) _ _ => apply wp_call; intros [?e|?v] ?w _
  | |- match ?x with Some _ => _ | None => _ end =>
      first
        [ match goal with H : x = _ |- _ => rewrite H end
        | destruct x as [?m|] eqn:?Hname ]
  end;
  cbn [ns wd trace heap stdout tri_mesh machina singular_vertices
       uvw_map iso_pts set_tri_mesh set_machina set_singular_vertices
       set_uvw_map set_iso_pts].

(** A returned result is in the trace: found among the events that the
    cell added, or known from before. *)
Ltac in_trace :=
  first
    [ eassumption
    | apply in_or_app; left; in_trace
    | apply in_or_app; right; left; reflexivity ].

Ltac known_names Hn :=
  repeat match goal with
         | H : machina _ = Some ?m |- _ =>
             destruct (proj1 Hn m H) as [? ?]; clear H
         | H : singular_vertices _ = Some ?sv |- _ =>
             destruct (proj1 (proj2 Hn) sv H) as [? [? [? ?]]]; clear H
         | H : uvw_map _ = Some ?u |- _ =>
             destruct (proj2 (proj2 Hn) u H) as [? ?]; clear H
         end.

Ltac justify :=
  simpl;
  first
    [ exact I
    | eexists _, _; (split; [|reflexivity]); in_trace
    | eexists _, _, _, _, _;
      (split; [|split; [|split; [|reflexivity]]]);
      [in_trace | in_trace | eassumption]
    | eexists _, _, _, _; (split; [|split; [|reflexivity]]); in_trace ].

Ltac names_clause Hn :=
  first
    [ let x := fresh in
      let Hx := fresh in
      intros x Hx;
      cbn [tri_mesh machina singular_vertices uvw_map iso_pts set_tri_mesh
           set_machina set_singular_vertices set_uvw_map set_iso_pts]
        in Hx;
      first [ injection Hx as <- | known_names Hn ];
      first
        [ eexists; in_trace
        | eexists _, _; split; [in_trace | eassumption] ] ].

Ltac keep_invariant Hj Hn :=
  known_names Hn;
  split;
  [ repeat (apply all_justified_snoc; [|justify]); exact Hj
  | split; [names_clause Hn | split; names_clause Hn] ].

Lemma run_cell_invariant impl c k :
  session_invariant k -> session_invariant (run_cell impl c k).2.
Proof.
  intros [Hj Hn].
  change (wp (run_cell impl c) (fun _ k' => session_invariant k') k).
  destruct c; cbn [run_cell];
    unfold cell_imports, cell_tetmesh, cell_framefield, cell_singular,
      cell_parametrize, cell_extract, cell_empty;
    repeat session_step.
  all: keep_invariant Hj Hn.
Qed.

Lemma session_keeps_invariant impl cs : forall k,
  session_invariant k -> session_invariant (session impl cs k).
Proof.
  induction cs as [|c cs IH]; intros k Hk; [exact Hk|].
  apply IH, run_cell_invariant, Hk.
Qed.

(** X6.  In a session that starts in a kernel without names, whatever the
    cells that are run, in whatever order and however often, and whichever
    of them fail: [parametrize_volume] is only ever called on the result
    of an earlier [HexMachina] and on the component [[2]] of the result of
    an earlier [singular_graph]; [extract_isolines] on the results of an
    earlier [HexMachina] and an earlier [parametrize_volume]; and
    [compute_dual], [init_framefield], [optimize_framefield] and
    [singular_graph] on the result of an earlier [HexMachina]. *)
Theorem session_calls_are_justified
    (impl : callee -> pyfun) (w0 : world) (cs : list cell_name)
    (pre post : list event) (e : event) :
  trace (session impl cs (fresh empty_namespace w0)) = pre ++ e :: post ->
  justified pre e.
Proof.
  assert (Hinv : session_invariant
                   (session impl cs (fresh empty_namespace w0))).
  { apply session_keeps_invariant. split; [apply all_justified_nil|].
    repeat split; intros x Hx; discriminate Hx. }
  intros Heq. exact (proj1 Hinv pre e post Heq).
Qed.

(** X7.  The names do not tie the singular graph to the frame field: when
    the mesh cell completes in a kernel without names and the
    singular-graph cell is run next, [singular_graph] is called on the
    result of [HexMachina] although no callable of the frame-field stage
    has been called. *)
Theorem singular_cell_runs_without_frame_field
    (impl : callee -> pyfun) (w0 : world) :
  (cell_tetmesh impl (fresh empty_namespace w0)).1 = inr tt ->
  (exists m hm h,
     In (EvRet HexMachina m hm)
        (trace (session impl [c_tetmesh; c_singular]
                  (fresh empty_namespace w0))) /\
     In (EvCall singular_graph [m] [] h)
        (trace (session impl [c_tetmesh; c_singular]
                  (fresh empty_namespace w0)))) /\
  (forall c args kwargs h,
     In (EvCall c args kwargs h)
        (trace (session impl [c_tetmesh; c_singular]
                  (fresh empty_namespace w0))) ->
     c <> init_framefield /\ c <> optimize_framefield).
Proof.
  change (wp (cell_tetmesh impl)
            (fun r k1 =>
               r = inr tt ->
               wp (cell_singular impl)
                 (fun _ k2 =>
                    (exists m hm h,
                       In (EvRet HexMachina m hm) (trace k2) /\
                       In (EvCall singular_graph [m] [] h) (trace k2)) /\
                    (forall c args kwargs h,
                       In (EvCall c args kwargs h) (trace k2) ->
                       c <> init_framefield /\ c <> optimize_framefield))
                 k1)
            (fresh empty_namespace w0)).
  unfold cell_tetmesh, cell_singular, fresh.
  repeat first
    [ cell_step
    | (let H := fresh in intros H; discriminate H)
    | intros _ ].
  all: split;
    [ eexists _, _, _; split; find_event
    | intros c args kwargs h Hin; simpl in Hin;
      repeat (destruct Hin as [Hin|Hin];
              [ first [ discriminate Hin
                      | injection Hin as <- <- <- <-; split; discriminate ]
              | ]);
      contradiction ].
Qed.





(** ** Sessions: the heap between calls *)

Lemma handed_over_snoc tr x :
  handed_over tr -> hands_on (last tr) x -> handed_over (tr ++ [x]).
Proof.
  induction tr as [|e tr IH]; intros Htr Hx.
  - simpl. now destruct x.
  - destruct Htr as [He Htr].
    destruct tr as [|e' tr'].
    + simpl in *. destruct e, x; tauto.
    + change ((e :: e' :: tr') ++ [x]) with (e :: (e' :: tr') ++ [x]).
      split; [|apply IH; [exact Htr | exact Hx]].
      simpl. exact He.
Qed.

Ltac hand_on Hlast :=
  first
    [ rewrite last_snoc; simpl; first [exact I | reflexivity]
    | unfold hands_on;
      destruct (last (trace _)) as [[]|]; first [exact I | exact Hlast] ].

Lemma run_cell_heap_invariant impl c k :
  heap_invariant k -> heap_invariant (run_cell impl c k).2.
Proof.
  intros [Hh Hlast].
  change (wp (run_cell impl c) (fun _ k' => heap_invariant k') k).
  destruct c; cbn [run_cell];
    unfold cell_imports, cell_tetmesh, cell_framefield, cell_singular,
      cell_parametrize, cell_extract, cell_empty;
    repeat session_step;
    (split;
     [ repeat (apply handed_over_snoc; [|hand_on Hlast]); exact Hh
     | cbn [trace wd heap]; rewrite ?last_snoc;
       first [reflexivity | exact I | exact Hlast] ]).
Qed.

Lemma session_heap_invariant impl cs : forall k,
  heap_invariant k -> heap_invariant (session impl cs k).
Proof.
  induction cs as [|c cs IH]; intros k Hk; [exact Hk|].
  apply IH, run_cell_heap_invariant, Hk.
Qed.

(** X11.  In a session too, the cells write to no object: whatever the
    cells that are run and their order, each call starts in the heap that
    the call before it left when it returned. *)
Theorem session_hands_the_heap_over
    (impl : callee -> pyfun) (n0 : namespace) (w0 : world)
    (cs : list cell_name) :
  handed_over (trace (session impl cs (fresh n0 w0))).
Proof.
  apply (session_heap_invariant impl cs (fresh n0 w0)).
  split; exact I.
Qed.

(** ** The further theorems on the stand-ins *)


Lemma split_at {A} (l : list A) (i : nat) (d : A) :
  (i < length l)%nat -> l = take i l ++ nth i l d :: drop (S i) l.
Proof.
  intros Hi. symmetry. apply take_drop_middle.
  destruct (nth_lookup_or_length l i d) as [H|H]; [exact H | lia].
Qed.


Lemma complete_run_binds_results_witness :
  (run_all demo_impl (fresh empty_namespace empty_world)).1 = inr tt /\
  exists t ht m hm r hr sv u hu p hp,
    ns (run_all demo_impl (fresh empty_namespace empty_world)).2
    = {| tri_mesh := Some t; machina := Some m;
         singular_vertices := Some sv; uvw_map := Some u;
         iso_pts := Some p |} /\
    In (EvRet load_mesh t ht) demo_trace /\
    In (EvRet HexMachina m hm) demo_trace /\
    In (EvRet singular_graph r hr) demo_trace /\
    subscript r 2 = inr sv /\
    In (EvRet parametrize_volume u hu) demo_trace /\
    In (EvRet extract_isolines p hp) demo_trace.
Proof.
  assert (H : (run_all demo_impl (fresh empty_namespace empty_world)).1
              = inr tt) by (vm_compute; reflexivity).
  split; [exact H|].
  exact (complete_run_binds_results demo_impl empty_namespace empty_world H).
Defined.

Lemma exports_read_current_attributes_witness :
  In (EvCall vtk_framefield [VTuple [VInt 0]; VStr "field"] []
        (demo_heap 30)) demo_trace /\
  attribute_read vtk_framefield = Some ("frames", [VStr "field"]) /\
  exists m hm x,
    In (EvRet HexMachina m hm) demo_trace /\
    getattr_in (heap_only (demo_heap 30)) m "frames" = inr x /\
    [VTuple [VInt 0]; VStr "field"] = [x; VStr "field"].
Proof.
  assert (H : In (EvCall vtk_framefield [VTuple [VInt 0]; VStr "field"] []
                    (demo_heap 30)) demo_trace).
  { apply (demo_In 30); [demo_index | reflexivity]. }
  split; [exact H|]. split; [reflexivity|].
  exact (exports_read_current_attributes demo_impl empty_namespace
           empty_world _ _ _ _ _ _ H eq_refl).
Defined.

Lemma session_calls_are_justified_witness :
  demo_session
  = take 40 demo_session
    ++ nth 40 demo_session (EvRaise say_ok TypeError)
       :: drop 41 demo_session /\
  justified (take 40 demo_session)
    (nth 40 demo_session (EvRaise say_ok TypeError)).
Proof.
  assert (H : demo_session
              = take 40 demo_session
                ++ nth 40 demo_session (EvRaise say_ok TypeError)
                   :: drop 41 demo_session).
  { apply (split_at demo_session 40 (EvRaise say_ok TypeError)).
    vm_compute. lia. }
  split; [exact H|].
  exact (session_calls_are_justified demo_impl empty_world demo_cells
           _ _ _ H).
Defined.

Lemma singular_cell_runs_without_frame_field_witness :
  (cell_tetmesh demo_impl (fresh empty_namespace empty_world)).1 = inr tt /\
  (exists m hm h,
     In (EvRet HexMachina m hm)
        (trace (session demo_impl [c_tetmesh; c_singular]
                  (fresh empty_namespace empty_world))) /\
     In (EvCall singular_graph [m] [] h)
        (trace (session demo_impl [c_tetmesh; c_singular]
                  (fresh empty_namespace empty_world)))) /\
  (forall c args kwargs h,
     In (EvCall c args kwargs h)
        (trace (session demo_impl [c_tetmesh; c_singular]
                  (fresh empty_namespace empty_world))) ->
     c <> init_framefield /\ c <> optimize_framefield).
Proof.
  assert (H : (cell_tetmesh demo_impl (fresh empty_namespace empty_world)).1
              = inr tt) by (vm_compute; reflexivity).
  split; [exact H|].
  exact (singular_cell_runs_without_frame_field demo_impl empty_world H).
Defined.



(** ** The group of the 24 rotations *)

Lemma cube_rotations_count : length cube_rotations = 24%nat.
Proof. vm_compute. reflexivity. Qed.

Lemma all_dirs_complete d : In d all_dirs.
Proof. destruct d as [[] []]; simpl; tauto. Qed.

Lemma all_maps_complete r : In r all_maps.
Proof.
  destruct r as [u v w]. unfold all_maps.
  apply in_flat_map. exists u. split; [apply all_dirs_complete|].
  apply in_flat_map. exists v. split; [apply all_dirs_complete|].
  apply in_map, all_dirs_complete.
Qed.

Lemma in_cube_rotations r : In r cube_rotations <-> is_rotation r = true.
Proof.
  unfold cube_rotations. rewrite filter_In.
  split; [tauto | intros H; split; [apply all_maps_complete | exact H]].
Qed.

Lemma rot_id_rotation : In rot_id cube_rotations.
Proof. apply in_cube_rotations. reflexivity. Qed.


Lemma act_compose r2 r1 d : act (compose r2 r1) d = act r2 (act r1 d).
Proof.
  destruct d as [f a]. unfold act. destruct a; simpl;
    f_equal; apply xorb_assoc_reverse || (symmetry; apply xorb_assoc_reverse).
Qed.

Lemma compose_assoc r3 r2 r1 :
  compose r3 (compose r2 r1) = compose (compose r3 r2) r1.
Proof.
  unfold compose at 1 3. simpl. now rewrite !act_compose.
Qed.

Lemma compose_id_l r : compose rot_id r = r.
Proof.
  destruct r as [[fu au] [fv av] [fw aw]]. unfold compose, act. simpl.
  destruct au, av, aw; simpl; now rewrite !xorb_false_r.
Qed.

Lemma compose_id_r r : compose r rot_id = r.
Proof. now destruct r as [[fu au] [fv av] [fw aw]]. Qed.

Lemma rotation_inverse r :
  In r cube_rotations ->
  exists r', In r' cube_rotations /\ compose r' r = rot_id /\
             compose r r' = rot_id.
Proof.
  assert (Hall : forallb
                   (fun a =>
                      existsb
                        (fun b => bool_decide (compose b a = rot_id)
                                  && bool_decide (compose a b = rot_id))
                        cube_rotations)
                   cube_rotations = true) by (vm_compute; reflexivity).
  rewrite forallb_forall in Hall.
  intros H. specialize (Hall r H). apply existsb_exists in Hall.
  destruct Hall as [r' [Hin Hb]]. apply andb_prop in Hb as [Hl Hr].
  exists r'. split; [exact Hin|].
  split; [now apply bool_decide_eq_true in Hl
         | now apply bool_decide_eq_true in Hr].
Qed.

(** ** Singular edges *)

Import SingularGraph.

Section SingularEdges.

Variable matching : nat -> nat -> rot.





(** The classification does not depend on the tet at which the walk around
    the edge starts. *)
Lemma dual_faces_from_snoc a b l :
  l <> [] ->
  dual_faces_from a (l ++ [b]) = dual_faces_from b l ++ [(b, a)].
Proof.
  induction l as [|s rest IH]; [congruence|]. intros _.
  destruct rest as [|t rest']; [reflexivity|].
  change (dual_faces_from a ((s :: t :: rest') ++ [b]))
    with ((s, t) :: dual_faces_from a ((t :: rest') ++ [b])).
  rewrite IH by discriminate. reflexivity.
Qed.

Lemma compose_along_start fs start :
  compose_along matching fs start
  = compose (compose_along matching fs rot_id) start.
Proof.
  revert start. induction fs as [|f fs IH]; intros start.
  - simpl. now rewrite compose_id_l.
  - simpl. rewrite IH. rewrite (IH (compose _ rot_id)).
    now rewrite compose_id_r, compose_assoc.
Qed.

Lemma commute_to_identity g m :
  In m cube_rotations -> compose g m = rot_id -> compose m g = rot_id.
Proof.
  intros Hm Hgm.
  destruct (rotation_inverse m Hm) as [m' [_ [Hl Hr]]].
  assert (Hg : g = m').
  { rewrite <- (compose_id_r g), <- Hr, compose_assoc, Hgm.
    apply compose_id_l. }
  now rewrite Hg.
Qed.

Lemma commute_from_identity g m :
  In m cube_rotations -> compose m g = rot_id -> compose g m = rot_id.
Proof.
  intros Hm Hmg.
  destruct (rotation_inverse m Hm) as [m' [_ [Hl Hr]]].
  assert (Hg : g = m').
  { rewrite <- (compose_id_l g), <- Hl, <- compose_assoc, Hmg.
    apply compose_id_r. }
  now rewrite Hg.
Qed.

Lemma singular_start_independent t0 rest :
  (forall s t, In (matching s t) cube_rotations) ->
  rest <> [] ->
  is_singular matching (rest ++ [t0]) = is_singular matching (t0 :: rest).
Proof.
  intros Hm Hne.
  destruct rest as [|t1 rest']; [congruence|].
  assert (Hrot : holonomy matching ((t1 :: rest') ++ [t0]) = rot_id
                 <-> holonomy matching (t0 :: t1 :: rest') = rot_id).
  { unfold holonomy.
    change (dual_faces_around ((t1 :: rest') ++ [t0]))
      with (dual_faces_from t1 ((t1 :: rest') ++ [t0])).
    change (dual_faces_around (t0 :: t1 :: rest'))
      with ((t0, t1) :: dual_faces_from t0 (t1 :: rest')).
    rewrite dual_faces_from_snoc by discriminate.
    unfold compose_along at 1. rewrite fold_left_app. simpl.
    change (fold_left _ ?fs ?st) with (compose_along matching fs st).
    rewrite (compose_along_start _ (compose _ rot_id)), compose_id_r.
    split.
    - apply commute_from_identity, Hm.
    - apply commute_to_identity, Hm. }
  unfold is_singular, classify.
  destruct (decide (holonomy matching ((t1 :: rest') ++ [t0]) = rot_id))
    as [H1|H1],
    (decide (holonomy matching (t0 :: t1 :: rest') = rot_id)) as [H2|H2];
    tauto.
Qed.

End SingularEdges.

(** ** The energy of the frame field *)

Import FrameField.
Local Open Scope Q_scope.

Lemma Qlt_bool_true x y : Qlt_bool x y = true -> x < y.
Proof.
  unfold Qlt_bool. intros H. apply negb_true_iff in H.
  apply Qnot_le_lt. intros Hle. apply Qle_bool_iff in Hle. congruence.
Qed.

Lemma Qlt_bool_false x y : Qlt_bool x y = false -> y <= x.
Proof.
  unfold Qlt_bool. intros H. apply negb_false_iff in H.
  now apply Qle_bool_iff.
Qed.

Lemma argmin_In {A} (f : A -> Q) l : forall best,
  In (argmin f best l) (best :: l).
Proof.
  induction l as [|x l IH]; intros best; simpl; [now left|].
  destruct (Qlt_bool (f x) (f best)).
  - right. apply IH.
  - destruct (IH best) as [H|H]; [now left | right; now right].
Qed.

Lemma argmin_least {A} (f : A -> Q) l : forall best x,
  In x (best :: l) -> f (argmin f best l) <= f x.
Proof.
  induction l as [|y l IH]; intros best x Hx; simpl.
  - destruct Hx as [->|[]]. apply Qle_refl.
  - destruct (Qlt_bool (f y) (f best)) eqn:Hlt.
    + apply Qlt_bool_true in Hlt.
      destruct Hx as [->|[->|Hx]].
      * apply Qle_trans with (f y);
          [apply IH; now left | now apply Qlt_le_weak].
      * apply IH. now left.
      * apply IH. now right.
    + apply Qlt_bool_false in Hlt.
      destruct Hx as [->|[->|Hx]].
      * apply IH. now left.
      * apply Qle_trans with (f best); [apply IH; now left | exact Hlt].
      * apply IH. now right.
Qed.

Lemma sq_monotone a b : 0 <= a -> a <= b -> sq a <= sq b.
Proof.
  unfold sq. intros Ha Hab.
  apply Qle_trans with (b * a).
  - now apply Qmult_le_compat_r.
  - rewrite (Qmult_comm b a). apply Qmult_le_compat_r; [exact Hab|].
    now apply Qle_trans with a.
Qed.

Section Energy.

Variable frame : Type.
Variable angle : frame -> frame -> rot -> Q.
Variable faces : list (nat * nat).
Variable memory : Type.
Variable increment : Type.
Variable direction : memory -> field frame -> matchings -> increment.
Variable remember : memory -> field frame -> field frame -> memory.
Variable retract : field frame -> increment -> Q -> field frame.
Variable step_lengths : list Q.

Hypothesis angle_nonneg : forall fs ft r, 0 <= angle fs ft r.

Lemma best_matching_rotation fs ft :
  In (best_matching frame angle fs ft) cube_rotations.
Proof.
  unfold best_matching.
  destruct (argmin_In (angle fs ft) cube_rotations rot_id) as [<-|H];
    [apply rot_id_rotation | exact H].
Qed.

Lemma best_matching_least fs ft r :
  In r cube_rotations ->
  angle fs ft (best_matching frame angle fs ft) <= angle fs ft r.
Proof.
  intros Hr. unfold best_matching. apply argmin_least. now right.
Qed.

(** Under the matchings recomputed from a field, its energy is no more
    than under any other choice among the 24 rotations. *)
Lemma energy_rematch (f : field frame) (m : matchings) :
  (forall s t, In (m s t) cube_rotations) ->
  smoothness frame angle faces f <= energy frame angle faces f m.
Proof.
  intros Hm. unfold smoothness, energy.
  induction faces as [|[s t] fs IH]; simpl; [apply Qle_refl|].
  apply Qplus_le_compat; [|exact IH].
  apply sq_monotone; [apply angle_nonneg|].
  unfold compute_matchings. apply best_matching_least, Hm.
Qed.

Lemma line_search_lowers f m d trials f' :
  line_search frame angle faces increment retract f m d trials = Some f' ->
  energy frame angle faces f' m < energy frame angle faces f m.
Proof.
  induction trials as [|a rest IH]; simpl; [discriminate|].
  destruct (Qlt_bool _ _) eqn:Hlt.
  - intros [= <-]. now apply Qlt_bool_true.
  - exact IH.
Qed.

Lemma outer_iteration_energy st :
  smoothness frame angle faces
    (outer_iteration frame angle faces memory increment direction remember
       retract step_lengths st).2
  <= smoothness frame angle faces st.2.
Proof.
  unfold outer_iteration.
  destruct (line_search _ _ _ _ _ _ _ _ _) as [f'|] eqn:Hls;
    [|apply Qle_refl].
  simpl. apply line_search_lowers in Hls.
  apply Qle_trans
    with (energy frame angle faces f' (compute_matchings frame angle st.2)).
  - apply energy_rematch. intros s t. apply best_matching_rotation.
  - now apply Qlt_le_weak.
Qed.

(** C6.  Along the outer iterations of the optimizer, from any field and
    any memory, the smoothness energy of an iterate is at most that of the
    iterate before it. *)
Theorem energy_never_increases (st0 : memory * field frame) (k : nat) :
  smoothness frame angle faces
    (Nat.iter (S k)
       (outer_iteration frame angle faces memory increment direction
          remember retract step_lengths) st0).2
  <= smoothness frame angle faces
       (Nat.iter k
          (outer_iteration frame angle faces memory increment direction
             remember retract step_lengths) st0).2.
Proof. simpl. apply outer_iteration_energy. Qed.

End Energy.

(** ** Running out of budget *)

Import VolumeParametrizer.

Section Budgeted.

Variable S : Type.
Variable step : S -> S.
Variable reached : S -> S -> bool.






End Budgeted.


(** ** The cells that are emitted *)

Import HexExtractor.

Lemma is_positive_true q : is_positive q = true -> 0 < q.
Proof.
  unfold is_positive. intros H. apply negb_true_iff in H.
  apply Qnot_le_lt. intros Hle. apply Qle_bool_iff in Hle. congruence.
Qed.

Lemma all_found_some l : forall c,
  all_found l = Some c -> l = map Some c.
Proof.
  induction l as [|[p|] rest IH]; intros c H; simpl in H.
  - now injection H as <-.
  - destruct (all_found rest) as [ps|]; [|discriminate].
    injection H as <-. simpl. f_equal. now apply IH.
  - discriminate.
Qed.

(** The volume enclosed by the faces is the sum of the volumes of the
    pyramids under them, from whatever apex. *)
Lemma six_volume_from (o p0 p1 p2 p3 p4 p5 p6 p7 : point) :
  six_volume [p0; p1; p2; p3; p4; p5; p6; p7]
  == fold_right
       (fun f acc =>
          seen_from o (corner [p0; p1; p2; p3; p4; p5; p6; p7] f.1.1.1)
                      (corner [p0; p1; p2; p3; p4; p5; p6; p7] f.1.1.2)
                      (corner [p0; p1; p2; p3; p4; p5; p6; p7] f.1.2)
          + seen_from o (corner [p0; p1; p2; p3; p4; p5; p6; p7] f.1.1.1)
                        (corner [p0; p1; p2; p3; p4; p5; p6; p7] f.1.2)
                        (corner [p0; p1; p2; p3; p4; p5; p6; p7] f.2)
          + acc)
       0 hex_faces.
Proof.
  unfold six_volume, seen_from, det3, minus, hex_faces, corner.
  cbn [fold_right nth fst snd px py pz].
  ring.
Qed.

Lemma Qsum_positive a b : 0 < a -> 0 <= b -> 0 < a + b.
Proof. intros Ha Hb. exact (Qplus_lt_le_compat 0 a 0 b Ha Hb). Qed.

Lemma face_outward_positive c f :
  face_outward c f = true ->
  0 < seen_from (centroid c) (corner c f.1.1.1) (corner c f.1.1.2)
        (corner c f.1.2)
      + seen_from (centroid c) (corner c f.1.1.1) (corner c f.1.2)
          (corner c f.2).
Proof.
  unfold face_outward. intros H.
  apply andb_prop in H as [H _]. apply andb_prop in H as [H _].
  apply andb_prop in H as [H1 H2].
  apply is_positive_true in H1, H2.
  apply Qsum_positive; [exact H1 | now apply Qlt_le_weak].
Qed.

Lemma pyramids_positive (g : nat * nat * nat * nat -> Q) fs :
  fs <> [] -> (forall f, In f fs -> 0 < g f) ->
  0 < fold_right (fun f acc => g f + acc) 0 fs.
Proof.
  induction fs as [|f rest IH]; [congruence|]. intros _ Hpos.
  simpl. destruct rest as [|f' rest'].
  - simpl. rewrite Qplus_0_r. apply Hpos. now left.
  - apply Qsum_positive.
    + apply Hpos. now left.
    + apply Qlt_le_weak, IH; [discriminate|].
      intros x Hx. apply Hpos. now right.
Qed.

Lemma well_formed_volume c : well_formed c = true -> 0 < six_volume c.
Proof.
  unfold well_formed. intros H. apply andb_prop in H as [Hlen Hfaces].
  apply Nat.eqb_eq in Hlen. rewrite forallb_forall in Hfaces.
  destruct c as [|p0 [|p1 [|p2 [|p3 [|p4 [|p5 [|p6 [|p7 [|p8 c]]]]]]]]];
    try discriminate Hlen.
  rewrite (six_volume_from (centroid [p0; p1; p2; p3; p4; p5; p6; p7])).
  set (c := [p0; p1; p2; p3; p4; p5; p6; p7]) in *.
  apply (pyramids_positive
           (fun f => seen_from (centroid c) (corner c f.1.1.1)
                       (corner c f.1.1.2) (corner c f.1.2)
                     + seen_from (centroid c) (corner c f.1.1.1)
                         (corner c f.1.2) (corner c f.2)));
    [discriminate|].
  intros f Hf. apply face_outward_positive, Hfaces, Hf.
Qed.

Section Emitted.

Variable locate : Z * Z * Z -> option point.

Lemma link_some base c :
  link locate base = Some c ->
  map locate (neighbours base) = map Some c /\ well_formed c = true.
Proof.
  unfold link.
  destruct (all_found (map locate (neighbours base))) as [c'|] eqn:Hall;
    [|discriminate].
  destruct (well_formed c') eqn:Hwf; [|discriminate].
  intros [= <-]. split; [now apply all_found_some | exact Hwf].
Qed.

Lemma extract_linked lattice c :
  In c (extract locate lattice) ->
  exists base, In base lattice /\ link locate base = Some c.
Proof.
  induction lattice as [|b rest IH]; simpl; [tauto|].
  destruct (link locate b) as [c'|] eqn:Hl.
  - intros [<-|Hin].
    + exists b. split; [now left | exact Hl].
    + destruct (IH Hin) as [base [Hb Hlink]]. exists base. split; auto.
  - intros Hin. destruct (IH Hin) as [base [Hb Hlink]].
    exists base. split; auto.
Qed.

(** C4.  Every cell that the extraction emits is made of the positions
    found for the 8 lattice points around a base point, in the order of
    those points; its 6 quadrilateral faces are turned outward; and the
    volume that they enclose is strictly positive. *)
Theorem emitted_cells_are_hexahedra (lattice : list (Z * Z * Z)) (c : cell) :
  In c (extract locate lattice) ->
  (exists base, In base lattice /\
     map locate (neighbours base) = map Some c) /\
  length c = 8%nat /\
  (forall f, In f hex_faces -> face_outward c f = true) /\
  0 < six_volume c.
Proof.
  intros Hin.
  destruct (extract_linked lattice c Hin) as [base [Hb Hlink]].
  destruct (link_some base c Hlink) as [Hloc Hwf].
  split; [exists base; now split|].
  pose proof Hwf as Hwf'. unfold well_formed in Hwf'.
  apply andb_prop in Hwf' as [Hlen Hfaces].
  split; [now apply Nat.eqb_eq|].
  split; [now apply forallb_forall | now apply well_formed_volume].
Qed.

End Emitted.

(** ** The test for an isoline point *)

Import Isolines.



(** ** The theorems on small instances *)



Lemma demo_angle_nonneg fs ft r : (0 <= demo_angle fs ft r)%Q.
Proof. unfold demo_angle. now destruct (decide (compose ft r = fs)). Qed.

Lemma energy_never_increases_witness :
  (forall fs ft r, (0 <= demo_angle fs ft r)%Q) /\
  (smoothness rot demo_angle demo_faces
     (Nat.iter 1
        (outer_iteration rot demo_angle demo_faces unit unit
           (fun _ _ _ => tt) (fun m _ _ => m) demo_retract [1%Q])
        (tt, demo_field)).2
   <= smoothness rot demo_angle demo_faces
        (Nat.iter 0
           (outer_iteration rot demo_angle demo_faces unit unit
              (fun _ _ _ => tt) (fun m _ _ => m) demo_retract [1%Q])
           (tt, demo_field)).2)%Q.
Proof.
  split; [exact demo_angle_nonneg|].
  exact (energy_never_increases rot demo_angle demo_faces unit unit
           (fun _ _ _ => tt) (fun m _ _ => m) demo_retract [1%Q]
           demo_angle_nonneg (tt, demo_field) 0).
Defined.


Lemma emitted_cells_are_hexahedra_witness :
  In [Point 0 0 0; Point 1 0 0; Point 0 1 0; Point 1 1 0;
      Point 0 0 1; Point 1 0 1; Point 0 1 1; Point 1 1 1]
     (extract demo_locate demo_lattice) /\
  (exists base, In base demo_lattice /\
     map demo_locate (neighbours base)
     = map Some [Point 0 0 0; Point 1 0 0; Point 0 1 0; Point 1 1 0;
                 Point 0 0 1; Point 1 0 1; Point 0 1 1; Point 1 1 1]) /\
  length [Point 0 0 0; Point 1 0 0; Point 0 1 0; Point 1 1 0;
          Point 0 0 1; Point 1 0 1; Point 0 1 1; Point 1 1 1] = 8%nat /\
  (forall f, In f hex_faces ->
     face_outward [Point 0 0 0; Point 1 0 0; Point 0 1 0; Point 1 1 0;
                   Point 0 0 1; Point 1 0 1; Point 0 1 1; Point 1 1 1] f
     = true) /\
  (0 < six_volume [Point 0 0 0; Point 1 0 0; Point 0 1 0; Point 1 1 0;
                   Point 0 0 1; Point 1 0 1; Point 0 1 1; Point 1 1 1])%Q.
Proof.
  assert (H : In [Point 0 0 0; Point 1 0 0; Point 0 1 0; Point 1 1 0;
                  Point 0 0 1; Point 1 0 1; Point 0 1 1; Point 1 1 1]
                 (extract demo_locate demo_lattice)).
  { vm_compute. left. reflexivity. }
  split; [exact H|].
  exact (emitted_cells_are_hexahedra demo_locate demo_lattice _ H).
Defined.
